(** * go-env: loading [KEY=VALUE] files into the process environment

    A shallow embedding of [env.go] (package [env]) and of the parts of the
    Go standard library it calls, followed by the properties of [LoadEnv]
    and [GetEnv].

    Go strings are byte sequences: they are modelled by [string], whose
    characters are the 256 values of [ascii]. *)

From Stdlib Require Import ZArith Lia Bool Ascii.
From stdpp Require Import gmap strings list fin_maps.

(** ** Go string primitives: [len(s)], [s[i]], [s[i:j]] *)

Definition len (s : string) : nat := String.length s.

(** [s[i:j]] for [i <= j <= len(s)]. *)
Definition slice (s : string) (i j : nat) : string :=
  String.substring i (j - i) s.

(** [s[len(s)-1]], when [s] is not empty. *)
Definition lastByte (s : string) : option ascii :=
  String.get (len s - 1) s.

(** [s[:len(s)-1]]. *)
Definition dropLast (s : string) : string := slice s 0 (len s - 1).

(** [c >= utf8.RuneSelf], i.e. [c >= 0x80]. *)
Definition nonASCII (c : ascii) : bool := (128 <=? N_of_ascii c)%N.

(** The bytes of the two quote characters. *)
Definition dquote : ascii := "034"%char.
Definition squote : ascii := "039"%char.

(** ** Package [strings] *)

Module strings.

(** [strings.HasPrefix(s, prefix)]:
    [len(s) >= len(prefix) && s[:len(prefix)] == prefix]. *)
Definition HasPrefix (s prefix : string) : bool :=
  (len prefix <=? len s) && String.eqb (slice s 0 (len prefix)) prefix.

(** [strings.IndexByte(s, c)]: the index of the first [c] in [s];
    Go's [-1] is [None]. *)
Fixpoint IndexByte (s : string) (c : ascii) : option nat :=
  match s with
  | EmptyString => None
  | String a r =>
      if Ascii.eqb a c then Some 0 else S <$> IndexByte r c
  end.

(** [strings.Count(s, sep)] for a one-byte separator. *)
Fixpoint Count (s : string) (c : ascii) : nat :=
  match s with
  | EmptyString => 0
  | String a r => (if Ascii.eqb a c then 1 else 0) + Count r c
  end.

(** The loop of [genSplit]: at most [k] more cuts.
<<
    for i < n {
      m := Index(s, sep)
      if m < 0 { break }
      a[i] = s[:m+sepSave]
      s = s[m+len(sep):]
      i++
    }
    a[i] = s
>> *)
Fixpoint genSplit_loop (k : nat) (s : string) (sep : ascii) : list string :=
  match k with
  | O => [s]
  | S k' =>
      match IndexByte s sep with
      | None => [s]
      | Some m => slice s 0 m :: genSplit_loop k' (slice s (m + 1) (len s)) sep
      end
  end.

(** [strings.SplitN(s, sep, n)] for a separator of one byte (the type
    [ascii] of [sep] leaves out Go's empty and longer separators, which
    [env.go] does not use). *)
Definition SplitN (s : string) (sep : ascii) (n : Z) : list string :=
  (if n =? 0 then []
   else
     let n := if n <? 0 then Z.of_nat (Count s sep) + 1 else n in
     let n := if Z.of_nat (len s) + 1 <? n then Z.of_nat (len s) + 1 else n in
     genSplit_loop (Z.to_nat (n - 1)) s sep)%Z.

(** [asciiSet]: a set of ASCII bytes, with [as.contains(c)]. *)
Definition asciiSet : Type := ascii → bool.

(** [makeASCIISet(chars)]: fails when [chars] has a byte [>= 0x80]. *)
Fixpoint makeASCIISet (chars : string) : option asciiSet :=
  match chars with
  | EmptyString => Some (λ _, false)
  | String c r =>
      if nonASCII c then None
      else (λ (as' : asciiSet) x, Ascii.eqb x c || as' x) <$> makeASCIISet r
  end.

(** [trimLeftASCII]:
<<
    for len(s) > 0 {
      if !as.contains(s[0]) { break }
      s = s[1:]
    }
>> *)
Fixpoint trimLeftASCII (s : string) (as' : asciiSet) : string :=
  match s with
  | EmptyString => EmptyString
  | String c r => if as' c then trimLeftASCII r as' else s
  end.

(** [trimRightASCII]:
<<
    for len(s) > 0 {
      if !as.contains(s[len(s)-1]) { break }
      s = s[:len(s)-1]
    }
>>
    The loop runs at most [len(s)] times. *)
Fixpoint trimRightASCII_loop (fuel : nat) (s : string) (as' : asciiSet) : string :=
  match fuel with
  | O => s
  | S fuel' =>
      match lastByte s with
      | None => s
      | Some c => if as' c then trimRightASCII_loop fuel' (dropLast s) as' else s
      end
  end.

Definition trimRightASCII (s : string) (as' : asciiSet) : string :=
  trimRightASCII_loop (len s) s as'.

(** [strings.Trim(s, cutset)].  For a cutset of ASCII bytes Go trims byte
    by byte, from the right and then from the left.  A cutset with a
    non-ASCII byte makes Go trim rune by rune; [env.go] has no such call
    and that branch leaves [s] as it is here. *)
Definition Trim (s cutset : string) : string :=
  if String.eqb s "" || String.eqb cutset "" then s
  else
    match makeASCIISet cutset with
    | Some as' => trimLeftASCII (trimRightASCII s as') as'
    | None => s
    end.

(** The table [asciiSpace]: ['\t'], ['\n'], ['\v'], ['\f'], ['\r'], [' ']. *)
Definition asciiSpace (c : ascii) : bool :=
  let n := N_of_ascii c in ((9 <=? n) && (n <=? 13) || (n =? 32))%N.

(** The white-space runes above U+007F ([unicode.IsSpace]) in UTF-8:
    U+0085, U+00A0 (two bytes), U+1680, U+2000..U+200A, U+2028, U+2029,
    U+202F, U+205F, U+3000 (three bytes). *)
Definition space2 (b0 b1 : ascii) : bool :=
  let '(x0, x1) := (N_of_ascii b0, N_of_ascii b1) in
  ((x0 =? 194) && ((x1 =? 133) || (x1 =? 160)))%N.

Definition space3 (b0 b1 b2 : ascii) : bool :=
  let '(x0, x1, x2) := (N_of_ascii b0, N_of_ascii b1, N_of_ascii b2) in
  ((x0 =? 225) && (x1 =? 154) && (x2 =? 128)
   || (x0 =? 226) && (x1 =? 128)
      && ((128 <=? x2) && (x2 <=? 138) || (x2 =? 168) || (x2 =? 169) || (x2 =? 175))
   || (x0 =? 226) && (x1 =? 129) && (x2 =? 159)
   || (x0 =? 227) && (x1 =? 128) && (x2 =? 128))%N.

(** Width in bytes of the rune at the start of [s] when
    [utf8.DecodeRuneInString] yields a white-space rune there, [0]
    otherwise (also for invalid UTF-8, which decodes to U+FFFD). *)
Definition leadingSpace (s : string) : nat :=
  match s with
  | String b0 r0 =>
      if asciiSpace b0 then 1
      else match r0 with
           | String b1 r1 =>
               if space2 b0 b1 then 2
               else match r1 with
                    | String b2 _ => if space3 b0 b1 b2 then 3 else 0
                    | EmptyString => 0
                    end
           | EmptyString => 0
           end
  | EmptyString => 0
  end.

(** The same for the rune at the end of [s]
    ([utf8.DecodeLastRuneInString]). *)
Definition trailingSpace (s : string) : nat :=
  match String.rev s with
  | String b0 r0 =>
      if asciiSpace b0 then 1
      else match r0 with
           | String b1 r1 =>
               if space2 b1 b0 then 2
               else match r1 with
                    | String b2 _ => if space3 b2 b1 b0 then 3 else 0
                    | EmptyString => 0
                    end
           | EmptyString => 0
           end
  | EmptyString => 0
  end.

(** [TrimLeftFunc(s, unicode.IsSpace)] and
    [TrimRightFunc(s, unicode.IsSpace)], one rune per iteration. *)
Fixpoint trimLeftSpace (fuel : nat) (s : string) : string :=
  match fuel with
  | O => s
  | S fuel' =>
      match leadingSpace s with
      | O => s
      | w => trimLeftSpace fuel' (slice s w (len s))
      end
  end.

Fixpoint trimRightSpace (fuel : nat) (s : string) : string :=
  match fuel with
  | O => s
  | S fuel' =>
      match trailingSpace s with
      | O => s
      | w => trimRightSpace fuel' (slice s 0 (len s - w))
      end
  end.

(** [TrimFunc(s, unicode.IsSpace)] and [TrimRightFunc(s, unicode.IsSpace)];
    no loop runs more than [len(s)] times. *)
Definition TrimFunc_IsSpace (s : string) : string :=
  let s := trimLeftSpace (len s) s in
  trimRightSpace (len s) s.

Definition TrimRightFunc_IsSpace (s : string) : string :=
  trimRightSpace (len s) s.

(** The second loop of [strings.TrimSpace], on [s[start:]]:
<<
    stop := len(s)
    for ; stop > start; stop-- {
      c := s[stop-1]
      if c >= utf8.RuneSelf {
        return TrimRightFunc(s[start:stop], unicode.IsSpace)
      }
      if asciiSpace[c] == 0 { break }
    }
    return s[start:stop]
>> *)
Fixpoint TrimSpace_stop (fuel : nat) (s : string) : string :=
  match fuel with
  | O => s
  | S fuel' =>
      match lastByte s with
      | None => s
      | Some c =>
          if nonASCII c then TrimRightFunc_IsSpace s
          else if asciiSpace c then TrimSpace_stop fuel' (dropLast s)
          else s
      end
  end.

(** [strings.TrimSpace(s)]: all leading and trailing white space removed,
    as defined by Unicode.  The first loop, followed by the second:
<<
    start := 0
    for ; start < len(s); start++ {
      c := s[start]
      if c >= utf8.RuneSelf {
        return TrimFunc(s[start:], unicode.IsSpace)
      }
      if asciiSpace[c] == 0 { break }
    }
>> *)
Fixpoint TrimSpace (s : string) : string :=
  match s with
  | EmptyString => EmptyString
  | String c r =>
      if nonASCII c then TrimFunc_IsSpace s
      else if asciiSpace c then TrimSpace r
      else TrimSpace_stop (len s) s
  end.

End strings.

(** ** The host: errors, files, the process environment *)

(** The [error] values that can reach the two functions. *)
Inductive error : Type :=
| PathError (op path : string)   (* [*fs.PathError], from [os.Open] *)
| ReadError                      (* a failed read of the open file *)
| ErrTooLong                     (* [bufio.ErrTooLong] *)
| SyscallError (call : string).  (* [*os.SyscallError], from [os.Setenv] *)

(** What a [bufio.Scanner] with the default split function delivers over an
    open file: the tokens returned by [Text()] for as long as [Scan()]
    is true, and then the value of [Err()] ([None] is Go's [nil]). *)
Record File : Type := mkFile {
  tokens : list string;
  scanErr : option error
}.

(** The state of the host that the package touches: for each path the
    outcome of [os.Open], and the environment of the process. *)
Record World : Type := mkWorld {
  files : string → File + error;
  environ : gmap string string
}.

(** State passing: a Go call is a function from the world to its results
    and the world after it. *)
Definition IO (A : Type) : Type := World → A * World.

Definition ret {A : Type} (a : A) : IO A := λ w, (a, w).

Definition bind {A B : Type} (m : IO A) (k : A → IO B) : IO B :=
  λ w, let '(a, w') := m w in k a w'.

Notation "x <- m ;; k" := (bind m (λ x, k))
  (at level 100, m at next level, right associativity).

Module os.

(** [os.Open(name)]. *)
Definition Open (name : string) : IO (File + error) :=
  λ w, (files w name, w).

(** A byte that [setenv] refuses: the NUL byte. *)
Definition NUL : ascii := "000"%char.

Definition hasByte (s : string) (c : ascii) : bool :=
  bool_decide (is_Some (strings.IndexByte s c)).

(** [syscall.Setenv] (Unix) returns [EINVAL] for an empty key, for a key
    with [=] or NUL, and for a value with NUL. *)
Definition validEnv (key value : string) : bool :=
  negb (String.eqb key "")
  && negb (hasByte key "=") && negb (hasByte key NUL)
  && negb (hasByte value NUL).

(** [os.Setenv(key, value)]. *)
Definition Setenv (key value : string) : IO (option error) :=
  λ w,
    if validEnv key value
    then (None, mkWorld (files w) (<[key := value]> (environ w)))
    else (Some (SyscallError "setenv"), w).

(** [os.Getenv(key)]: the empty string when [key] is unset. *)
Definition Getenv (key : string) : IO string :=
  λ w, (default "" (environ w !! key), w).

End os.

Module bufio.

Definition MaxScanTokenSize : nat := 64 * 1024.

(** [dropCR]: a trailing ['\r'] is not part of the line. *)
Definition dropCR (data : string) : string :=
  match lastByte data with
  | Some c => if Ascii.eqb c "013" then dropLast data else data
  | None => data
  end.

(** [Scanner.Scan] with [ScanLines] over the bytes [data] that are left
    in a file read without fault: each token ends at the first ['\n'];
    the bytes after the last ['\n'], if any, are the last token.  A token
    that does not fit the buffer of [MaxScanTokenSize] bytes together with
    its ['\n'] ends the scan with [ErrTooLong]. *)
Fixpoint scan (fuel : nat) (data : string) : list string * option error :=
  match fuel with
  | O => ([], None)
  | S fuel' =>
      if String.eqb data "" then ([], None)
      else
        match strings.IndexByte data "010" with
        | Some i =>
            if MaxScanTokenSize <=? i then ([], Some ErrTooLong)
            else
              let '(ts, e) := scan fuel' (slice data (i + 1) (len data)) in
              (dropCR (slice data 0 i) :: ts, e)
        | None =>
            if MaxScanTokenSize <=? len data then ([], Some ErrTooLong)
            else ([dropCR data], None)
        end
  end.

(** The file with the bytes [content]. *)
Definition fileOf (content : string) : File :=
  let '(ts, e) := scan (S (len content)) content in mkFile ts e.

End bufio.

(** ** Package [env] ([env.go]) *)

Module env.

(** The cutset of the two calls of [strings.Trim]: the double quote and
    the single quote, written as a raw string literal in [env.go]. *)
Definition quotes : string := String dquote (String squote "").

(** The loop of [LoadEnv] over the lines that the scanner delivers.
<<
    for scanner.Scan() {
      line := scanner.Text()
      if line == "" || strings.HasPrefix(line, "#") { continue }
      parts := strings.SplitN(line, "=", 2)
      if len(parts) != 2 { continue }
      key := strings.TrimSpace(parts[0])
      value := strings.TrimSpace(parts[1])
      value = strings.Trim(value, quotes)
      os.Setenv(key, value)
    }
>> *)
Fixpoint LoadEnv_loop (lines : list string) : IO unit :=
  match lines with
  | [] => ret tt
  | line :: rest =>
      if String.eqb line "" || strings.HasPrefix line "#" then LoadEnv_loop rest
      else
        match strings.SplitN line "=" 2 with
        | [part0; part1] =>
            let key := strings.TrimSpace part0 in
            let value := strings.TrimSpace part1 in
            let value := strings.Trim value quotes in
            _ <- os.Setenv key value ;;
            LoadEnv_loop rest
        | _ => LoadEnv_loop rest
        end
  end.

(** [func LoadEnv(filename string) error]. *)
Definition LoadEnv (filename : string) : IO (option error) :=
  file <- os.Open filename ;;
  match file with
  | inr err => ret (Some err)
  | inl file =>
      _ <- LoadEnv_loop (tokens file) ;;
      ret (scanErr file)
  end.

(** The loop of [GetEnv]; [final] is [scanner.Err()].
<<
    for scanner.Scan() {
      line := scanner.Text()
      if line == "" || strings.HasPrefix(line, "#") { continue }
      parts := strings.SplitN(line, "=", 2)
      if len(parts) != 2 { continue }
      if strings.TrimSpace(parts[0]) == key {
        value := strings.TrimSpace(parts[1])
        return strings.Trim(value, quotes), nil
      }
    }
    return "", scanner.Err()
>> *)
Fixpoint GetEnv_loop (key : string) (lines : list string)
    (final : option error) : IO (string * option error) :=
  match lines with
  | [] => ret ("", final)
  | line :: rest =>
      if String.eqb line "" || strings.HasPrefix line "#"
      then GetEnv_loop key rest final
      else
        match strings.SplitN line "=" 2 with
        | [part0; part1] =>
            if String.eqb (strings.TrimSpace part0) key then
              let value := strings.TrimSpace part1 in
              ret (strings.Trim value quotes, None)
            else GetEnv_loop key rest final
        | _ => GetEnv_loop key rest final
        end
  end.

(** [func GetEnv(key string, filename string) (string, error)]. *)
Definition GetEnv (key filename : string) : IO (string * option error) :=
  file <- os.Open filename ;;
  match file with
  | inr err => ret ("", Some err)
  | inl file => GetEnv_loop key (tokens file) (scanErr file)
  end.

End env.

(** ** Predicates on strings *)

(** [occurs c s]: the byte [c] occurs in [s]. *)
Definition occurs (c : ascii) (s : string) : Prop :=
  ∃ a b, s = a +:+ String c b.

(** [allBytes p s]: every byte of [s] satisfies [p]. *)
Fixpoint allBytes (p : ascii → bool) (s : string) : bool :=
  match s with
  | EmptyString => true
  | String c r => p c && allBytes p r
  end.

(** [s[0]], when [s] is not empty. *)
Definition firstByte (s : string) : option ascii :=
  match s with
  | EmptyString => None
  | String c _ => Some c
  end.

(** A string starts (ends) with a byte of the set [p]. *)
Definition startsIn (p : ascii → bool) (s : string) : bool :=
  match firstByte s with Some c => p c | None => false end.

Definition endsIn (p : ascii → bool) (s : string) : bool :=
  match lastByte s with Some c => p c | None => false end.

(** ** Vocabulary for the properties of [env.go] *)

(** The test of lines 57 and 98: the line is skipped as empty or as a
    comment.  A line that is not [ignored] is a candidate. *)
Definition ignored (line : string) : bool :=
  String.eqb line "" || strings.HasPrefix line "#".

(** A quote character: a member of the cutset [env.quotes], in the form in
    which [strings.makeASCIISet] builds the set. *)
Definition isQuote (c : ascii) : bool :=
  Ascii.eqb c dquote || (Ascii.eqb c squote || false).

(** The value that lines 67-68 and 108-109 compute from the text after the
    first [=]. *)
Definition normalValue (part1 : string) : string :=
  strings.Trim (strings.TrimSpace part1) env.quotes.

(** The entry, if any, that the steps shared by the two loops read off a
    line: key and value of a candidate line that has a [=]. *)
Definition entryOf (line : string) : option (string * string) :=
  if ignored line then None
  else
    match strings.SplitN line "=" 2 with
    | [part0; part1] => Some (strings.TrimSpace part0, normalValue part1)
    | _ => None
    end.

(** The entries of a sequence of lines, in the order of the lines. *)
Definition entriesOf (lines : list string) : list (string * string) :=
  omap entryOf lines.

(** The line has an entry for [key]. *)
Definition matchesKey (key line : string) : bool :=
  match entryOf line with
  | Some (k, _) => String.eqb k key
  | None => false
  end.

(** One write of [os.Setenv] on the environment alone. *)
Definition setenvOn (e : gmap string string) (kv : string * string)
    : gmap string string :=
  if os.validEnv kv.1 kv.2 then <[kv.1 := kv.2]> e else e.

(** The value that the last accepted write for [key] among [es] leaves. *)
Definition lastWrite (key : string) (es : list (string * string))
    : option string :=
  foldl (λ acc kv,
           if os.validEnv kv.1 kv.2 && String.eqb kv.1 key
           then Some kv.2 else acc)
        None es.

(** The one-byte string of the double quote. *)
Definition dq : string := String dquote "".

(** A world with an empty environment and one readable file, [".env"],
    whose scanner delivers [lines] and then [final]. *)
Definition worldOf (lines : list string) (final : option error) : World :=
  mkWorld (λ path, if String.eqb path ".env" then inl (mkFile lines final)
                   else inr (PathError "open" path)) ∅.

(** The bytes of a text file with the given lines, each ended by ['\n']. *)
Definition unlines (ls : list string) : string :=
  foldr (λ l acc, l +:+ String "010" acc) "" ls.

(** A world with an empty environment and one readable file, [".env"],
    with the bytes [content]. *)
Definition worldOfContent (content : string) : World :=
  mkWorld (λ path, if String.eqb path ".env" then inl (bufio.fileOf content)
                   else inr (PathError "open" path)) ∅.

(** The writes of [os.Setenv] for a list of entries, in order. *)
Definition setenvAll (w : World) (es : list (string * string)) : World :=
  foldl (λ w kv, (os.Setenv kv.1 kv.2 w).2) w es.

(** The unquoting as the specification words it, to compare the code with:
    when the first and the last character of the value are the same quote
    character, that one pair is removed, once; any other value, also a
    value of one character, is left as it is. *)
Definition spec_unquote_once (v : string) : string :=
  match firstByte v, lastByte v with
  | Some a, Some b =>
      if (2 <=? len v) && isQuote a && Ascii.eqb a b
      then slice v 1 (len v - 1) else v
  | _, _ => v
  end.

(** Both loops pass over the line: each goes on with the lines after it as
    if the line were not there. *)
Definition loopsSkip (line : string) : Prop :=
  ∀ key rest final w,
    env.LoadEnv_loop (line :: rest) w = env.LoadEnv_loop rest w
    ∧ env.GetEnv_loop key (line :: rest) final w
      = env.GetEnv_loop key rest final w.

(** Both loops take the entry [(k, v)] from the line: the loop of [LoadEnv]
    calls [os.Setenv k v] and goes on; the loop of [GetEnv] returns [v] with
    no error when [k] is the target key, and goes on when it is not. *)
Definition loopsTake (line k v : string) : Prop :=
  ∀ key rest final w,
    env.LoadEnv_loop (line :: rest) w
    = env.LoadEnv_loop rest (os.Setenv k v w).2
    ∧ env.GetEnv_loop key (line :: rest) final w
      = if String.eqb k key then ((v, None), w)
        else env.GetEnv_loop key rest final w.

(** ** Vocabulary for further properties *)

(** A run of white-space runes, in UTF-8. *)
Inductive spaceRun : string → Prop :=
| spaceRun_nil : spaceRun ""
| spaceRun_cons (rune rest : string) :
    0 < len rune → strings.leadingSpace rune = len rune →
    spaceRun rest → spaceRun (rune +:+ rest).

(** [os.Open] over a list of readable files; any other path fails. *)
Fixpoint openIn (fs : list (string * File)) (path : string) : File + error :=
  match fs with
  | [] => inr (PathError "open" path)
  | (p, f) :: rest => if String.eqb path p then inl f else openIn rest path
  end.

(** The bytes of a text file whose lines end with ['\r'] ['\n']. *)
Definition unlinesCRLF (ls : list string) : string :=
  foldr (λ l acc, l +:+ String "013" (String "010" acc)) "" ls.

(** [n] times the byte [c]. *)
Fixpoint repeatByte (n : nat) (c : ascii) : string :=
  match n with
  | O => EmptyString
  | S n' => String c (repeatByte n' c)
  end.

(** A line that the scanner gives back as it was written. *)
Definition plainLine (l : string) : Prop :=
  strings.IndexByte l "010" = None ∧ lastByte l ≠ Some "013"%char
  ∧ len l + 1 < bufio.MaxScanTokenSize.

(** The first byte of a white-space rune in UTF-8. *)
Definition runeStart (c : ascii) : bool :=
  let n := N_of_ascii c in
  (strings.asciiSpace c || (n =? 194) || (n =? 225) || (n =? 226) || (n =? 227))%N.

(** ** Facts about strings *)

Section StringFacts.

Implicit Types (s r a b : string) (c d : ascii).

Lemma app_cons c a b : String c a +:+ b = String c (a +:+ b).
Proof. reflexivity. Qed.

Lemma app_empty_l a : "" +:+ a = a.
Proof. reflexivity. Qed.

Lemma app_empty_r a : a +:+ "" = a.
Proof. induction a as [|c a IH]; [done|]. by rewrite app_cons, IH. Qed.

Lemma app_assoc' a b r : (a +:+ b) +:+ r = a +:+ (b +:+ r).
Proof. induction a as [|c a IH]; [done|]. by rewrite !app_cons, IH. Qed.

Lemma len_app a b : len (a +:+ b) = len a + len b.
Proof. induction a as [|c a IH]; [done|]. rewrite app_cons. simpl. by rewrite IH. Qed.

Lemma len_snoc a c : len (a +:+ String c "") = S (len a).
Proof. rewrite len_app. simpl. lia. Qed.

Lemma app_eq_empty a b : a +:+ b = "" → a = "" ∧ b = "".
Proof. destruct a; [done|]. by rewrite app_cons. Qed.

Lemma snoc_neq_empty a c : a +:+ String c "" ≠ "".
Proof. by destruct a. Qed.

(** A string that is not empty has a last byte. *)
Lemma snoc_exists s : s ≠ "" → ∃ r c, s = r +:+ String c "".
Proof.
  induction s as [|d s IH]; [done|]. intros _.
  destruct s as [|e s].
  - by exists "", d.
  - destruct IH as (r & c & ->); [done|]. by exists (String d r), c.
Qed.

(** Induction from the right end. *)
Lemma string_snoc_ind (P : string → Prop) :
  P "" → (∀ s c, P s → P (s +:+ String c "")) → ∀ s, P s.
Proof.
  intros Hnil Hsnoc s.
  remember (len s) as n eqn:Hn. revert s Hn.
  induction n as [|n IH]; intros s Hn.
  - by destruct s.
  - destruct (snoc_exists s) as (r & c & ->); [by destruct s|].
    rewrite len_snoc in Hn. apply Hsnoc, IH. lia.
Qed.

Lemma snoc_inj a b c d :
  a +:+ String c "" = b +:+ String d "" → a = b ∧ c = d.
Proof.
  revert b. induction a as [|x a IH]; intros [|y b] H.
  - by inversion H.
  - rewrite app_cons in H. inversion H as [[Hx Hr]].
    symmetry in Hr. by apply snoc_neq_empty in Hr.
  - rewrite app_cons in H. inversion H as [[Hx Hr]].
    by apply snoc_neq_empty in Hr.
  - rewrite !app_cons in H. inversion H as [[Hx Hr]].
    destruct (IH _ Hr) as [-> ->]. done.
Qed.

Lemma substring_all s : String.substring 0 (len s) s = s.
Proof. induction s as [|c s IH]; [done|]. simpl. by rewrite IH. Qed.

Lemma substring_prefix a b : String.substring 0 (len a) (a +:+ b) = a.
Proof.
  induction a as [|c a IH]; [by destruct b|].
  rewrite app_cons. simpl. by rewrite IH.
Qed.

Lemma substring_suffix a b n :
  String.substring (len a) n (a +:+ b) = String.substring 0 n b.
Proof. induction a as [|c a IH]; [done|]. by rewrite app_cons. Qed.

Lemma slice_prefix a b : slice (a +:+ b) 0 (len a) = a.
Proof. unfold slice. rewrite Nat.sub_0_r. apply substring_prefix. Qed.

Lemma slice_suffix a c b :
  slice (a +:+ String c b) (len a + 1) (len (a +:+ String c b)) = b.
Proof.
  unfold slice. rewrite len_app. simpl.
  replace (len a + S (len b) - (len a + 1)) with (len b) by lia.
  replace (len a + 1) with (len (a +:+ String c "")) by (rewrite len_snoc; lia).
  replace (a +:+ String c b) with ((a +:+ String c "") +:+ b)
    by (by rewrite app_assoc').
  rewrite substring_suffix. apply substring_all.
Qed.

Lemma lastByte_snoc a c : lastByte (a +:+ String c "") = Some c.
Proof.
  unfold lastByte. rewrite len_snoc. simpl. rewrite Nat.sub_0_r.
  induction a as [|d a IH]; [done|]. by rewrite app_cons.
Qed.

Lemma dropLast_snoc a c : dropLast (a +:+ String c "") = a.
Proof.
  unfold dropLast. rewrite len_snoc. simpl. rewrite Nat.sub_0_r.
  apply slice_prefix.
Qed.

Lemma lastByte_empty : lastByte "" = None.
Proof. reflexivity. Qed.

Lemma lastByte_app a b : b ≠ "" → lastByte (a +:+ b) = lastByte b.
Proof.
  intros Hb. destruct (snoc_exists b Hb) as (r & c & ->).
  by rewrite <- app_assoc', !lastByte_snoc.
Qed.

End StringFacts.

Section SplitFacts.

Implicit Types (s r a b : string) (c d : ascii).

Lemma IndexByte_Some s c m :
  strings.IndexByte s c = Some m →
  ∃ a b, s = a +:+ String c b ∧ len a = m ∧ strings.IndexByte a c = None.
Proof.
  revert m. induction s as [|d s IH]; intros m; simpl; [done|].
  destruct (Ascii.eqb_spec d c) as [->|Hne].
  - intros [= <-]. by exists "", s.
  - destruct (strings.IndexByte s c) as [m'|] eqn:E; simpl; [|done].
    intros [= <-]. destruct (IH m' eq_refl) as (a & b & -> & <- & Ha).
    exists (String d a), b. split_and!; [done..|].
    simpl. destruct (Ascii.eqb_spec d c); [done|]. by rewrite Ha.
Qed.

Lemma IndexByte_None s c :
  strings.IndexByte s c = None ↔ ¬ occurs c s.
Proof.
  split.
  - intros Hs (a & b & ->). revert Hs.
    induction a as [|d a IH]; simpl.
    + by rewrite Ascii.eqb_refl.
    + rewrite ?app_cons. simpl. destruct (Ascii.eqb d c); [done|].
      destruct (strings.IndexByte (a +:+ String c b) c); [done|]. auto.
  - intros Hs. destruct (strings.IndexByte s c) as [m|] eqn:E; [|done].
    destruct (IndexByte_Some _ _ _ E) as (a & b & -> & _). destruct Hs.
    by exists a, b.
Qed.

(** The two outcomes of [strings.SplitN(line, sep, 2)]. *)
Lemma SplitN_2 s c :
  (strings.IndexByte s c = None ∧ strings.SplitN s c 2 = [s])
  ∨ (∃ a b, s = a +:+ String c b ∧ strings.IndexByte a c = None
            ∧ strings.SplitN s c 2 = [a; b]).
Proof.
  destruct s as [|d s]; [by left|].
  assert (strings.SplitN (String d s) c 2
          = strings.genSplit_loop 1 (String d s) c) as ->.
  { unfold strings.SplitN. cbv zeta.
    change (2 =? 0)%Z with false. change (2 <? 0)%Z with false. cbv iota.
    destruct (Z.ltb_spec (Z.of_nat (len (String d s)) + 1) 2) as [Hlt|_];
      [simpl len in Hlt; lia|done]. }
  unfold strings.genSplit_loop.
  destruct (strings.IndexByte (String d s) c) as [m|] eqn:E; [right|by left].
  destruct (IndexByte_Some _ _ _ E) as (a & b & Hs & <- & Ha).
  exists a, b. split_and!; [done..|].
  rewrite Hs. by rewrite slice_prefix, slice_suffix.
Qed.

Lemma HasPrefix_hash s :
  strings.HasPrefix s "#" = true ↔ ∃ r, s = String "#" r.
Proof.
  destruct s as [|c s].
  { split; [done|]. by intros [r ?]. }
  assert (strings.HasPrefix (String c s) "#" = Ascii.eqb c "#") as ->.
  { unfold strings.HasPrefix, slice. simpl. destruct s; simpl;
      by destruct (Ascii.eqb c "#"). }
  rewrite Ascii.eqb_eq. split.
  - intros ->. by exists s.
  - by intros [r [= -> _]].
Qed.

End SplitFacts.

Section TrimFacts.

Implicit Types (s r a b : string) (c d : ascii).
Variable p : strings.asciiSet.

Lemma trimRightASCII_empty : strings.trimRightASCII "" p = "".
Proof. reflexivity. Qed.

Lemma trimRightASCII_snoc s c :
  strings.trimRightASCII (s +:+ String c "") p =
  if p c then strings.trimRightASCII s p else s +:+ String c "".
Proof.
  unfold strings.trimRightASCII. rewrite len_snoc. simpl.
  by rewrite lastByte_snoc, dropLast_snoc.
Qed.

Lemma allBytes_app a b :
  allBytes p (a +:+ b) = allBytes p a && allBytes p b.
Proof.
  induction a as [|c a IH]; [done|]. rewrite app_cons. simpl.
  by rewrite IH, andb_assoc.
Qed.

Lemma trimRightASCII_all s : allBytes p s = true → strings.trimRightASCII s p = "".
Proof.
  induction s as [|s c IH] using string_snoc_ind; [done|].
  rewrite allBytes_app. simpl. rewrite andb_true_r.
  intros [Hs Hc]%andb_true_iff. rewrite trimRightASCII_snoc, Hc. auto.
Qed.

(** Bytes of the set at the right end are all cut. *)
Lemma trimRightASCII_app s b :
  allBytes p b = true →
  strings.trimRightASCII (s +:+ b) p = strings.trimRightASCII s p.
Proof.
  induction b as [|b c IH] using string_snoc_ind.
  - by rewrite app_empty_r.
  - rewrite allBytes_app. simpl. rewrite andb_true_r.
    intros [Hb Hc]%andb_true_iff.
    rewrite <- app_assoc', trimRightASCII_snoc, Hc. by apply IH.
Qed.

Lemma trimRightASCII_stop s : endsIn p s = false → strings.trimRightASCII s p = s.
Proof.
  unfold endsIn. destruct s as [|s c _] using string_snoc_ind; [done|].
  rewrite lastByte_snoc, trimRightASCII_snoc. by intros ->.
Qed.

Lemma trimLeftASCII_app a s :
  allBytes p a = true →
  strings.trimLeftASCII (a +:+ s) p = strings.trimLeftASCII s p.
Proof.
  induction a as [|c a IH]; [done|]. simpl.
  intros [Hc Ha]%andb_true_iff. rewrite ?app_cons. simpl. rewrite Hc. auto.
Qed.

Lemma trimLeftASCII_stop s : startsIn p s = false → strings.trimLeftASCII s p = s.
Proof. destruct s as [|c s]; [done|]. unfold startsIn. simpl. by intros ->. Qed.

(** What the right-hand loop cuts. *)
Lemma trimRightASCII_split s :
  ∃ b, s = strings.trimRightASCII s p +:+ b ∧ allBytes p b = true
       ∧ endsIn p (strings.trimRightASCII s p) = false.
Proof.
  induction s as [|s c IH] using string_snoc_ind.
  - by exists "".
  - rewrite trimRightASCII_snoc. destruct (p c) eqn:Hc.
    + destruct IH as (b & Hs & Hb & He). exists (b +:+ String c ""). split_and!.
      * by rewrite <- app_assoc', <- Hs.
      * rewrite allBytes_app, Hb. simpl. by rewrite Hc.
      * done.
    + exists "". split_and!; [by rewrite app_empty_r|done|].
      unfold endsIn. by rewrite lastByte_snoc.
Qed.

(** What the left-hand loop cuts. *)
Lemma trimLeftASCII_split s :
  ∃ a, s = a +:+ strings.trimLeftASCII s p ∧ allBytes p a = true
       ∧ startsIn p (strings.trimLeftASCII s p) = false.
Proof.
  induction s as [|c s IH]; [by exists ""|].
  simpl. destruct (p c) eqn:Hc.
  - destruct IH as (a & Hs & Ha & He). exists (String c a). split_and!.
    + by rewrite app_cons, <- Hs.
    + simpl. by rewrite Hc.
    + done.
  - exists "". split_and!; [done..|]. unfold startsIn. simpl. done.
Qed.

Lemma endsIn_app a b : b ≠ "" → endsIn p (a +:+ b) = endsIn p b.
Proof. intros Hb. unfold endsIn. by rewrite lastByte_app. Qed.

(** Both loops, on a string whose middle part is known. *)
Lemma trim_both a s b :
  allBytes p a = true → allBytes p b = true →
  startsIn p s = false → endsIn p s = false →
  strings.trimLeftASCII (strings.trimRightASCII (a +:+ s +:+ b) p) p = s.
Proof.
  intros Ha Hb Hs He.
  rewrite <- app_assoc', trimRightASCII_app by done.
  destruct (decide (s = "")) as [->|Hne].
  - rewrite app_empty_r, trimRightASCII_all by done. done.
  - rewrite trimRightASCII_stop by (by rewrite endsIn_app).
    rewrite trimLeftASCII_app by done. by apply trimLeftASCII_stop.
Qed.

(** Both loops, on any string. *)
Lemma trim_both_split s :
  let t := strings.trimLeftASCII (strings.trimRightASCII s p) p in
  ∃ a b, s = a +:+ t +:+ b ∧ allBytes p a = true ∧ allBytes p b = true
         ∧ startsIn p t = false ∧ endsIn p t = false.
Proof.
  intros t. subst t.
  destruct (trimRightASCII_split s) as (b & Hs & Hb & He).
  destruct (trimLeftASCII_split (strings.trimRightASCII s p)) as (a & Hr & Ha & Hst).
  exists a, b. split_and!; [|done..|].
  - rewrite <- app_assoc', <- Hr. done.
  - destruct (decide (strings.trimLeftASCII (strings.trimRightASCII s p) p = ""))
      as [->|Hne]; [done|].
    rewrite Hr, endsIn_app in He; done.
Qed.

End TrimFacts.

(** ** The two loops, line by line *)

Section Loops.

Implicit Types (line key : string) (lines rest : list string) (w : World).

Lemma entryOf_Some line k v :
  entryOf line = Some (k, v) ↔
  ignored line = false
  ∧ ∃ part0 part1, strings.SplitN line "=" 2 = [part0; part1]
      ∧ k = strings.TrimSpace part0
      ∧ v = strings.Trim (strings.TrimSpace part1) env.quotes.
Proof.
  unfold entryOf, normalValue. destruct (ignored line).
  { split; [done|]. by intros [? _]. }
  destruct (SplitN_2 line "=") as [[_ ->]|(a & b & _ & _ & ->)].
  - split; [done|]. by intros [_ (? & ? & ? & _)].
  - split.
    + intros [= <- <-]. split; [done|]. by exists a, b.
    + by intros [_ (? & ? & [= <- <-] & -> & ->)].
Qed.

Lemma LoadEnv_loop_cons line rest w :
  env.LoadEnv_loop (line :: rest) w =
  match entryOf line with
  | Some (k, v) => env.LoadEnv_loop rest (os.Setenv k v w).2
  | None => env.LoadEnv_loop rest w
  end.
Proof.
  unfold entryOf, ignored. simpl.
  destruct (String.eqb line "" || strings.HasPrefix line "#"); [done|].
  destruct (SplitN_2 line "=") as [[_ ->]|(a & b & _ & _ & ->)]; [done|].
  unfold bind, normalValue. by destruct (os.Setenv _ _ w).
Qed.

Lemma GetEnv_loop_cons key line rest final w :
  env.GetEnv_loop key (line :: rest) final w =
  match entryOf line with
  | Some (k, v) =>
      if String.eqb k key then ((v, None), w)
      else env.GetEnv_loop key rest final w
  | None => env.GetEnv_loop key rest final w
  end.
Proof.
  unfold entryOf, ignored. simpl.
  destruct (String.eqb line "" || strings.HasPrefix line "#"); [done|].
  destruct (SplitN_2 line "=") as [[_ ->]|(a & b & _ & _ & ->)]; [done|].
  unfold normalValue. by destruct (String.eqb _ key).
Qed.

Lemma Setenv_world k v w :
  (os.Setenv k v w).2 = mkWorld (files w) (setenvOn (environ w) (k, v)).
Proof.
  unfold os.Setenv, setenvOn. simpl.
  destruct (os.validEnv k v); [done|]. by destruct w.
Qed.

(** [LoadEnv]'s loop writes the entries of the lines, in their order. *)
Lemma LoadEnv_loop_writes lines w :
  env.LoadEnv_loop lines w =
  (tt, mkWorld (files w) (foldl setenvOn (environ w) (entriesOf lines))).
Proof.
  revert w. induction lines as [|line rest IH]; intros w.
  - by destruct w.
  - rewrite LoadEnv_loop_cons. unfold entriesOf. simpl.
    destruct (entryOf line) as [[k v]|]; [|apply IH].
    rewrite IH, Setenv_world. done.
Qed.

(** [GetEnv]'s loop leaves the world alone and reads no part of it. *)
Lemma GetEnv_loop_world key lines final w w' :
  (env.GetEnv_loop key lines final w).2 = w
  ∧ (env.GetEnv_loop key lines final w).1 = (env.GetEnv_loop key lines final w').1.
Proof.
  induction lines as [|line rest IH]; [done|].
  rewrite !GetEnv_loop_cons. destruct (entryOf line) as [[k v]|]; [|done].
  by destruct (String.eqb k key).
Qed.

(** The loop of [GetEnv] up to the first line with an entry for [key]. *)
Lemma GetEnv_loop_first key lines1 line lines2 value final w :
  Forall (λ l, matchesKey key l = false) lines1 →
  entryOf line = Some (key, value) →
  env.GetEnv_loop key (lines1 ++ line :: lines2) final w = ((value, None), w).
Proof.
  intros H1 Hl. induction H1 as [|l lines1 Hm _ IH]; simpl app.
  - by rewrite GetEnv_loop_cons, Hl, String.eqb_refl.
  - rewrite GetEnv_loop_cons. unfold matchesKey in Hm.
    destruct (entryOf l) as [[k v]|]; [|done]. by rewrite Hm.
Qed.

(** The loop of [GetEnv] when no line has an entry for [key]. *)
Lemma GetEnv_loop_absent key lines final w :
  Forall (λ l, matchesKey key l = false) lines →
  env.GetEnv_loop key lines final w = (("", final), w).
Proof.
  induction 1 as [|l lines Hm _ IH]; [done|].
  rewrite GetEnv_loop_cons. unfold matchesKey in Hm.
  destruct (entryOf l) as [[k v]|]; [|done]. by rewrite Hm.
Qed.

(** A sequence of lines either has no entry for [key] or has a first. *)
Lemma first_match key lines :
  Forall (λ l, matchesKey key l = false) lines
  ∨ ∃ lines1 line lines2,
      lines = lines1 ++ line :: lines2
      ∧ Forall (λ l, matchesKey key l = false) lines1
      ∧ matchesKey key line = true.
Proof.
  induction lines as [|l lines IH]; [by left|].
  destruct (matchesKey key l) eqn:Hl.
  - right. by exists [], l, lines.
  - destruct IH as [IH|(l1 & x & l2 & -> & H1 & Hx)].
    + left. by constructor.
    + right. exists (l :: l1), x, l2. split_and!; [done| |done].
      by constructor.
Qed.

Lemma matchesKey_true key line :
  matchesKey key line = true ↔ ∃ v, entryOf line = Some (key, v).
Proof.
  unfold matchesKey. destruct (entryOf line) as [[k v]|].
  - rewrite String.eqb_eq. split; [intros ->; by exists v|].
    by intros [? [= -> _]].
  - split; [done|]. by intros [? ?].
Qed.

End Loops.

(** ** The line classifier and the entry parser *)

Lemma leadingSpace_hash (r : string) : strings.leadingSpace (String "#" r) = 0.
Proof. by destruct r as [|b1 [|b2 r]]. Qed.

Lemma skip_no_entry (line : string) :
  entryOf line = None →
  ∀ key rest final w,
    env.LoadEnv_loop (line :: rest) w = env.LoadEnv_loop rest w
    ∧ env.GetEnv_loop key (line :: rest) final w
      = env.GetEnv_loop key rest final w.
Proof.
  intros H key rest final w.
  by rewrite LoadEnv_loop_cons, GetEnv_loop_cons, H.
Qed.

Lemma first_occurrence_unique (c : ascii) (a a' b b' : string) :
  a +:+ String c b = a' +:+ String c b' →
  ¬ occurs c a → ¬ occurs c a' → a = a' ∧ b = b'.
Proof.
  revert a'. induction a as [|x a IH]; intros [|y a'] H Ha Ha'.
  - by inversion H.
  - rewrite app_empty_l, app_cons in H. inversion H; subst.
    destruct Ha'. by exists "", a'.
  - rewrite app_empty_l, app_cons in H. inversion H; subst.
    destruct Ha. by exists "", a.
  - rewrite !app_cons in H. inversion H as [[Hx Hr]]; subst.
    destruct (IH a' Hr) as [-> ->]; [| |done].
    + intros (u & v & ->). apply Ha. by exists (String y u), v.
    + intros (u & v & ->). apply Ha'. by exists (String y u), v.
Qed.

Lemma loopsSkip_no_entry (line : string) :
  entryOf line = None → loopsSkip line.
Proof. intros H key rest final w. by apply skip_no_entry. Qed.

Lemma loopsTake_entry (line k v : string) :
  entryOf line = Some (k, v) → loopsTake line k v.
Proof.
  intros H key rest final w.
  by rewrite LoadEnv_loop_cons, GetEnv_loop_cons, H.
Qed.

(** A line is not both passed over and read. *)
Lemma loopsTake_not_skip (line k v : string) :
  loopsTake line k v → ¬ loopsSkip line.
Proof.
  intros Ht Hs.
  destruct (Ht k [] (Some ReadError) (worldOf [] None)) as [_ Hg].
  destruct (Hs k [] (Some ReadError) (worldOf [] None)) as [_ Hg'].
  rewrite String.eqb_refl in Hg. rewrite Hg in Hg'. discriminate.
Qed.

(** The entry that the loops take from a line is one. *)
Lemma loopsTake_unique (line k v k' v' : string) :
  loopsTake line k v → loopsTake line k' v' → k = k' ∧ v = v'.
Proof.
  intros Ht Ht'.
  destruct (Ht k [] (Some ReadError) (worldOf [] None)) as [_ Hg].
  destruct (Ht' k [] (Some ReadError) (worldOf [] None)) as [_ Hg'].
  rewrite String.eqb_refl in Hg. rewrite Hg in Hg'.
  destruct (String.eqb_spec k' k) as [->|_]; [|discriminate].
  by injection Hg' as ->.
Qed.

(** What the loops do with a line, by its entry. *)
Lemma loops_by_entry (line : string) :
  match entryOf line with
  | Some (k, v) => loopsTake line k v
  | None => loopsSkip line
  end.
Proof.
  destruct (entryOf line) as [[k v]|] eqn:He.
  - by apply loopsTake_entry.
  - by apply loopsSkip_no_entry.
Qed.

Lemma entryOf_split (line k v : string) :
  entryOf line = Some (k, v) ↔
  ignored line = false
  ∧ ∃ part0 part1, line = part0 +:+ String "=" part1 ∧ ¬ occurs "=" part0
      ∧ k = strings.TrimSpace part0
      ∧ v = strings.Trim (strings.TrimSpace part1) env.quotes.
Proof.
  rewrite entryOf_Some. split.
  - intros (Hi & p0 & p1 & Hs & -> & ->). split; [done|]. exists p0, p1.
    destruct (SplitN_2 line "=") as [[_ HS]|(a & b & Hl & Ha & HS)];
      rewrite HS in Hs; [done|]. injection Hs as <- <-.
    by apply IndexByte_None in Ha.
  - intros (Hi & p0 & p1 & Hl & Hp0 & -> & ->). split; [done|]. exists p0, p1.
    destruct (SplitN_2 line "=") as [[Hn _]|(a & b & Hl' & Ha & ->)].
    + apply IndexByte_None in Hn. destruct Hn. by exists p0, p1.
    + apply IndexByte_None in Ha. rewrite Hl in Hl'.
      by destruct (first_occurrence_unique _ _ _ _ _ Hl' Hp0 Ha) as [-> ->].
Qed.

Lemma ignored_iff (line : string) :
  ignored line = true ↔ line = "" ∨ ∃ rest, line = String "#" rest.
Proof.
  unfold ignored. by rewrite orb_true_iff, String.eqb_eq, HasPrefix_hash.
Qed.

Lemma has_entry_iff (line : string) :
  ignored line = false → (is_Some (entryOf line) ↔ occurs "=" line).
Proof.
  intros Hi. split.
  - intros [[k v] (_ & p0 & p1 & -> & _)%entryOf_split]. by exists p0, p1.
  - intros Ho. unfold entryOf. rewrite Hi.
    destruct (SplitN_2 line "=") as [[Hn _]|(a & b & _ & _ & ->)]; [|done].
    by apply IndexByte_None in Hn.
Qed.

(** C5.  Both loops pass over a raw line that is empty or whose first byte
    is [#], whatever else it holds, and over no other line that has a [=]:
    a line that is not empty and does not start with [#] is a candidate,
    and when it has a [=] both loops read its entry.  So the test of lines
    57 and 98 is true exactly for the empty line and the lines that start
    with [#].  A line that starts with a white-space rune (so every
    non-empty line of white space only, and every line with white space
    before a [#]) is a candidate.  The test is a total function of the line
    alone, and a line passed over changes neither the world nor the result
    of either loop. *)
Theorem classifier_ignore_iff (line : string) :
  (ignored line = true ↔ line = "" ∨ ∃ rest, line = String "#" rest)
  ∧ (0 < strings.leadingSpace line → ignored line = false)
  ∧ (ignored line = true →
     ∀ key rest final w,
       env.LoadEnv_loop (line :: rest) w = env.LoadEnv_loop rest w
       ∧ env.GetEnv_loop key (line :: rest) final w
         = env.GetEnv_loop key rest final w)
  ∧ ((line = "" ∨ ∃ rest, line = String "#" rest) → loopsSkip line)
  ∧ (occurs "=" line →
     (loopsSkip line ↔ line = "" ∨ ∃ rest, line = String "#" rest))
  ∧ (line ≠ "" → (∀ rest, line ≠ String "#" rest) →
     ∀ part0 part1,
       line = part0 +:+ String "=" part1 → ¬ occurs "=" part0 →
       loopsTake line (strings.TrimSpace part0)
         (strings.Trim (strings.TrimSpace part1) env.quotes))
  ∧ (0 < strings.leadingSpace line →
     ∀ part0 part1,
       line = part0 +:+ String "=" part1 → ¬ occurs "=" part0 →
       loopsTake line (strings.TrimSpace part0)
         (strings.Trim (strings.TrimSpace part1) env.quotes)).
Proof.
  pose proof (ignored_iff line) as Hiff.
  assert ((line = "" ∨ ∃ rest, line = String "#" rest) → loopsSkip line)
    as Hskip.
  { intros Hi%Hiff. apply loopsSkip_no_entry. unfold entryOf. by rewrite Hi. }
  assert (0 < strings.leadingSpace line → ignored line = false) as Hspace.
  { intros Hsp. apply not_true_is_false. intros E.
    apply Hiff in E as [->|[r ->]]; [simpl in Hsp; lia|].
    rewrite leadingSpace_hash in Hsp. lia. }
  assert (ignored line = false →
          ∀ part0 part1,
            line = part0 +:+ String "=" part1 → ¬ occurs "=" part0 →
            loopsTake line (strings.TrimSpace part0)
              (strings.Trim (strings.TrimSpace part1) env.quotes)) as Htake.
  { intros Hi p0 p1 Hl Hp0. apply loopsTake_entry, entryOf_split.
    split; [done|]. by exists p0, p1. }
  split_and!; [done|done| |done| | |].
  - intros Hi. apply skip_no_entry. unfold entryOf. by rewrite Hi.
  - intros Ho. split; [|done]. intros Hs.
    destruct (ignored line) eqn:Hi; [by apply Hiff|].
    destruct (proj2 (has_entry_iff line Hi) Ho) as [[k v] He].
    by destruct (loopsTake_not_skip line k v (loopsTake_entry _ _ _ He)).
  - intros Hne Hhash. apply Htake. apply not_true_is_false.
    intros [?|[r ?]]%Hiff; [done|by apply (Hhash r)].
  - intros Hsp. by apply Htake, Hspace.
Qed.

(** C6.  On a candidate line both loops read an entry exactly when the line
    has a [=]: the entry is then made from the text before the first [=]
    (its key, trimmed) and from all the text after it (its value, trimmed
    and unquoted), which may itself have further [=]; no other entry is
    read from the line.  This is [strings.SplitN(line, "=", 2)], which
    yields a pair exactly when the line has a [=], the pair being the text
    before the first [=] and the text after it.  A line without [=] yields
    no entry and both loops go on to the next line, with the world as it
    was. *)
Theorem entry_parser_first_eq (line : string) :
  ((∃ k v, strings.SplitN line "=" 2 = [k; v]) ↔ occurs "=" line)
  ∧ (∀ k v, strings.SplitN line "=" 2 = [k; v]
            ↔ line = k +:+ String "=" v ∧ ¬ occurs "=" k)
  ∧ (ignored line = false → (is_Some (entryOf line) ↔ occurs "=" line))
  ∧ (¬ occurs "=" line →
     strings.SplitN line "=" 2 = [line] ∧ entryOf line = None
     ∧ ∀ key rest final w,
         env.LoadEnv_loop (line :: rest) w = env.LoadEnv_loop rest w
         ∧ env.GetEnv_loop key (line :: rest) final w
           = env.GetEnv_loop key rest final w)
  ∧ (ignored line = false →
     ∀ k v,
       loopsTake line k v ↔
       ∃ part0 part1,
         line = part0 +:+ String "=" part1 ∧ ¬ occurs "=" part0
         ∧ k = strings.TrimSpace part0
         ∧ v = strings.Trim (strings.TrimSpace part1) env.quotes)
  ∧ (ignored line = false → ((∃ k v, loopsTake line k v) ↔ occurs "=" line))
  ∧ (ignored line = false → (loopsSkip line ↔ ¬ occurs "=" line)).
Proof.
  assert (∀ k v, strings.SplitN line "=" 2 = [k; v]
                 ↔ line = k +:+ String "=" v ∧ ¬ occurs "=" k) as Hpair.
  { intros k v.
    destruct (SplitN_2 line "=") as [[Hn ->]|(a & b & Hl & Ha & ->)].
    - split; [done|]. intros [-> _]. apply IndexByte_None in Hn.
      destruct Hn. by exists k, v.
    - apply IndexByte_None in Ha. split.
      + by intros [= <- <-].
      + intros [Hl' Hk]. rewrite Hl in Hl'.
        by destruct (first_occurrence_unique _ _ _ _ _ Hl' Ha Hk) as [-> ->]. }
  assert ((∃ k v, strings.SplitN line "=" 2 = [k; v]) ↔ occurs "=" line)
    as Hsome.
  { split.
    - intros (k & v & [-> _]%Hpair). by exists k, v.
    - intros Ho. destruct (SplitN_2 line "=") as [[Hn _]|(a & b & _ & _ & ->)].
      + by apply IndexByte_None in Hn.
      + by exists a, b. }
  assert (¬ occurs "=" line → strings.SplitN line "=" 2 = [line]) as Hnone.
  { intros Hno. destruct (SplitN_2 line "=") as [[_ ->]|(a & b & -> & _)];
      [done|]. destruct Hno. by exists a, b. }
  assert (¬ occurs "=" line → entryOf line = None) as Hnoentry.
  { intros Hno. unfold entryOf. rewrite (Hnone Hno). by destruct (ignored line). }
  assert (ignored line = false →
          ∀ k v,
            loopsTake line k v ↔
            ∃ part0 part1,
              line = part0 +:+ String "=" part1 ∧ ¬ occurs "=" part0
              ∧ k = strings.TrimSpace part0
              ∧ v = strings.Trim (strings.TrimSpace part1) env.quotes) as Htake.
  { intros Hc k v. split.
    - intros Ht. pose proof (loops_by_entry line) as Hl.
      destruct (entryOf line) as [[k' v']|] eqn:He.
      + destruct (loopsTake_unique _ _ _ _ _ Ht Hl) as [-> ->].
        by apply entryOf_split in He as [_ ?].
      + by destruct (loopsTake_not_skip _ _ _ Ht).
    - intros Hparts. apply loopsTake_entry, entryOf_split. by split. }
  split_and!; [done|done|by apply has_entry_iff| | done | |].
  - intros Hno. split_and!; [auto..|]. by apply skip_no_entry, Hnoentry.
  - intros Hc. split.
    + intros (k & v & (p0 & p1 & -> & _)%(Htake Hc)). by exists p0, p1.
    + intros [[k v] He]%(has_entry_iff line Hc). exists k, v.
      by apply loopsTake_entry.
  - intros Hc. split.
    + intros Hs [[k v] He]%(has_entry_iff line Hc).
      by destruct (loopsTake_not_skip line k v (loopsTake_entry _ _ _ He)).
    + intros Hno. by apply loopsSkip_no_entry, Hnoentry.
Qed.

Example loops_indented_hash :
  let r := env.LoadEnv ".env" (worldOf ["  #A=1"; "#B=2"] None) in
  environ r.2 = {[ "#A" := "1" ]}
  ∧ (env.GetEnv "#A" ".env" (worldOf ["  #A=1"; "#B=2"] None)).1 = ("1", None)
  ∧ (env.GetEnv "#B" ".env" (worldOf ["  #A=1"; "#B=2"] None)).1 = ("", None).
Proof. vm_compute. done. Qed.

Example loops_further_eq :
  let r := env.LoadEnv ".env" (worldOf ["URL=a=b=c"] None) in
  environ r.2 = {[ "URL" := "a=b=c" ]}
  ∧ (env.GetEnv "URL" ".env" (worldOf ["URL=a=b=c"] None)).1 = ("a=b=c", None).
Proof. vm_compute. done. Qed.

Example classifier_blank_line : ignored "   " = false.
Proof. reflexivity. Qed.

Example classifier_indented_hash : ignored "  # not a comment" = false.
Proof. reflexivity. Qed.

Example classifier_comment : ignored "# Database settings" = true.
Proof. reflexivity. Qed.

Example parser_further_eq : entryOf "URL=a=b=c" = Some ("URL", "a=b=c").
Proof. reflexivity. Qed.

Example parser_malformed : entryOf "INVALID_LINE" = None.
Proof. reflexivity. Qed.

Example parser_trims : entryOf "  DB_HOST  =  localhost  " = Some ("DB_HOST", "localhost").
Proof. reflexivity. Qed.

(** ** Value normalization: the quotes *)

Section Quotes.

Implicit Types (line v : string) (q : ascii).

Lemma makeASCIISet_quotes : strings.makeASCIISet env.quotes = Some isQuote.
Proof. reflexivity. Qed.

Lemma isQuote_iff q : isQuote q = true ↔ q = dquote ∨ q = squote.
Proof.
  unfold isQuote. rewrite !orb_true_iff, !Ascii.eqb_eq. intuition done.
Qed.

(** With the cutset of [env.go], [strings.Trim] is the two byte loops. *)
Lemma Trim_quotes v :
  strings.Trim v env.quotes
  = strings.trimLeftASCII (strings.trimRightASCII v isQuote) isQuote.
Proof.
  unfold strings.Trim. rewrite makeASCIISet_quotes.
  destruct v; [done|]. done.
Qed.

(** Both loops put the same value on a candidate line with a [=]. *)
Lemma both_loops_value line (part0 part1 : string) :
  ignored line = false →
  strings.SplitN line "=" 2 = [part0; part1] →
  let key := strings.TrimSpace part0 in
  let value := strings.Trim (strings.TrimSpace part1) env.quotes in
  (∀ rest w, env.LoadEnv_loop (line :: rest) w
             = env.LoadEnv_loop rest (os.Setenv key value w).2)
  ∧ (∀ rest final w, env.GetEnv_loop key (line :: rest) final w
                     = ((value, None), w)).
Proof.
  intros Hc Hs key value.
  assert (entryOf line = Some (key, value)) as He.
  { apply entryOf_Some. split; [done|]. by exists part0, part1. }
  split; intros.
  - by rewrite LoadEnv_loop_cons, He.
  - by rewrite GetEnv_loop_cons, He, String.eqb_refl.
Qed.

End Quotes.

(** C10.  On a candidate line with a [=], both loops take as value the
    white-space-trimmed text after the first [=] with ALL its leading and
    ALL its trailing quote characters removed, of either kind, in any mix
    and number: the value is the part of the trimmed text that is left
    between a run of quote characters at the start and a run at the end,
    and it neither starts nor ends with a quote character; whatever lies
    between, quote characters too, is kept. *)
Theorem normalization_trims_all_quotes (line part0 part1 : string) :
  ignored line = false →
  strings.SplitN line "=" 2 = [part0; part1] →
  let key := strings.TrimSpace part0 in
  let trimmed := strings.TrimSpace part1 in
  let value := strings.Trim trimmed env.quotes in
  (∀ rest w, env.LoadEnv_loop (line :: rest) w
             = env.LoadEnv_loop rest (os.Setenv key value w).2)
  ∧ (∀ rest final w, env.GetEnv_loop key (line :: rest) final w
                     = ((value, None), w))
  ∧ (∃ a b, trimmed = a +:+ value +:+ b
            ∧ allBytes isQuote a = true ∧ allBytes isQuote b = true)
  ∧ startsIn isQuote value = false ∧ endsIn isQuote value = false
  ∧ (∀ a inner b,
       trimmed = a +:+ inner +:+ b →
       allBytes isQuote a = true → allBytes isQuote b = true →
       startsIn isQuote inner = false → endsIn isQuote inner = false →
       value = inner).
Proof.
  intros Hc Hs key trimmed value.
  destruct (both_loops_value line part0 part1 Hc Hs) as [HL HG].
  destruct (trim_both_split isQuote trimmed) as (a & b & Ht & Ha & Hb & Hst & Hen).
  split; [exact HL|]. split; [exact HG|].
  subst value. rewrite Trim_quotes.
  split_and!; [|done|done|].
  - by exists a, b.
  - intros a' inner b' Heq Ha' Hb' Hst' Hen'. rewrite Heq. by apply trim_both.
Qed.

Lemma normalization_trims_all_quotes_witness :
  let line := "K='a" +:+ dq in
  ignored line = false
  ∧ strings.SplitN line "=" 2 = ["K"; "'a" +:+ dq]
  ∧ ∀ rest final w,
      env.GetEnv_loop "K" (line :: rest) final w = (("a", None), w).
Proof.
  split; [reflexivity|]. split; [reflexivity|].
  exact (proj1 (proj2 (normalization_trims_all_quotes
                         ("K='a" +:+ dq) "K" ("'a" +:+ dq) eq_refl eq_refl))).
Defined.

Example trims_mismatched_quotes : normalValue ("'a" +:+ dq) = "a".
Proof. reflexivity. Qed.

Example trims_nested_quotes : normalValue (dq +:+ dq +:+ "a" +:+ dq +:+ dq) = "a".
Proof. reflexivity. Qed.

Example keeps_interior_quotes :
  normalValue (dq +:+ "it's " +:+ dq +:+ "x" +:+ dq +:+ dq) = "it's " +:+ dq +:+ "x".
Proof. reflexivity. Qed.

Example unquotes_double : entryOf ("APP_NAME=" +:+ dq +:+ "My Application" +:+ dq)
                          = Some ("APP_NAME", "My Application").
Proof. reflexivity. Qed.

Example unquotes_single : entryOf "API_KEY='secret-key'" = Some ("API_KEY", "secret-key").
Proof. reflexivity. Qed.

(** C1, as the code has it.  On a candidate line with a [=], both loops
    take the same value: the white-space-trimmed text after the first [=]
    with every leading and every trailing quote character removed.  So when
    the trimmed text is one matching pair of quote characters around a text
    that neither starts nor ends with a quote character, exactly that pair
    is removed; a trimmed text that neither starts nor ends with a quote
    character is left as it is; mismatched and nested outer quote
    characters are removed as well, all of them. *)
Theorem unquote_outer_quotes (line part0 part1 : string) :
  ignored line = false →
  strings.SplitN line "=" 2 = [part0; part1] →
  let key := strings.TrimSpace part0 in
  let trimmed := strings.TrimSpace part1 in
  let value := strings.Trim trimmed env.quotes in
  (∀ rest w, env.LoadEnv_loop (line :: rest) w
             = env.LoadEnv_loop rest (os.Setenv key value w).2)
  ∧ (∀ rest final w, env.GetEnv_loop key (line :: rest) final w
                     = ((value, None), w))
  ∧ (∀ q inner,
       q = dquote ∨ q = squote →
       trimmed = String q inner +:+ String q "" →
       startsIn isQuote inner = false → endsIn isQuote inner = false →
       value = inner)
  ∧ (startsIn isQuote trimmed = false → endsIn isQuote trimmed = false →
     value = trimmed)
  ∧ (∃ a b, trimmed = a +:+ value +:+ b
            ∧ allBytes isQuote a = true ∧ allBytes isQuote b = true
            ∧ startsIn isQuote value = false ∧ endsIn isQuote value = false).
Proof.
  intros Hc Hs key trimmed value.
  destruct (both_loops_value line part0 part1 Hc Hs) as [HL HG].
  split; [exact HL|]. split; [exact HG|].
  subst value. rewrite Trim_quotes. split_and!.
  - intros q inner Hq Heq Hst Hen. apply isQuote_iff in Hq.
    rewrite Heq.
    change (String q inner +:+ String q "")
      with (String q "" +:+ inner +:+ String q "").
    apply trim_both; [simpl; by rewrite Hq..|done|done].
  - intros Hst Hen.
    rewrite <- (app_empty_r trimmed) at 1.
    by apply (trim_both isQuote "" trimmed "").
  - destruct (trim_both_split isQuote trimmed) as (a & b & Ht & Ha & Hb & Hst & Hen).
    by exists a, b.
Qed.

Lemma unquote_outer_quotes_witness :
  let line := "APP_NAME=" +:+ dq +:+ "My Application" +:+ dq in
  ignored line = false
  ∧ strings.SplitN line "=" 2 = ["APP_NAME"; dq +:+ "My Application" +:+ dq]
  ∧ ∀ rest final w,
      env.GetEnv_loop "APP_NAME" (line :: rest) final w
      = (("My Application", None), w).
Proof.
  split; [reflexivity|]. split; [reflexivity|].
  exact (proj1 (proj2 (unquote_outer_quotes
                         ("APP_NAME=" +:+ dq +:+ "My Application" +:+ dq)
                         "APP_NAME" (dq +:+ "My Application" +:+ dq)
                         eq_refl eq_refl))).
Defined.

(** C1 as stated fails: the trimmed value with a single quote at the start
    and a double quote at the end has no matching pair, so one-pair
    unquoting leaves it as it is, but both functions drop both quotes. *)
Lemma unquote_once_counterexample :
  let line := "K='a" +:+ dq in
  let w := worldOf [line] None in
  ignored line = false
  ∧ strings.SplitN line "=" 2 = ["K"; "'a" +:+ dq]
  ∧ spec_unquote_once (strings.TrimSpace ("'a" +:+ dq)) = "'a" +:+ dq
  ∧ (env.GetEnv "K" ".env" w).1 = ("a", None)
  ∧ environ (env.LoadEnv ".env" w).2 !! "K" = Some "a"
  ∧ (env.GetEnv "K" ".env" w).1.1 ≠ spec_unquote_once (strings.TrimSpace ("'a" +:+ dq)).
Proof. vm_compute. by repeat split. Qed.

(** C8, as the code has it.  On a candidate line whose white-space-trimmed
    text after the first [=] is one quote character and nothing else, both
    loops take the empty string as value: the lone quote is removed. *)
Theorem lone_quote_stripped (line part0 part1 : string) (q : ascii) :
  ignored line = false →
  strings.SplitN line "=" 2 = [part0; part1] →
  q = dquote ∨ q = squote →
  strings.TrimSpace part1 = String q "" →
  let key := strings.TrimSpace part0 in
  strings.Trim (strings.TrimSpace part1) env.quotes = ""
  ∧ (∀ rest w, env.LoadEnv_loop (line :: rest) w
               = env.LoadEnv_loop rest (os.Setenv key "" w).2)
  ∧ (∀ rest final w, env.GetEnv_loop key (line :: rest) final w
                     = (("", None), w)).
Proof.
  intros Hc Hs Hq Ht key.
  destruct (both_loops_value line part0 part1 Hc Hs) as [HL HG].
  assert (strings.Trim (strings.TrimSpace part1) env.quotes = "") as Hv.
  { rewrite Ht, Trim_quotes. apply isQuote_iff in Hq.
    rewrite (trimRightASCII_all isQuote (String q "")); [done|].
    simpl. by rewrite Hq. }
  rewrite Hv in HL, HG. done.
Qed.

Lemma lone_quote_stripped_witness :
  let line := "K=" +:+ dq in
  ignored line = false
  ∧ strings.SplitN line "=" 2 = ["K"; dq]
  ∧ strings.TrimSpace dq = dq
  ∧ ∀ rest final w,
      env.GetEnv_loop "K" (line :: rest) final w = (("", None), w).
Proof.
  split; [reflexivity|]. split; [reflexivity|]. split; [reflexivity|].
  exact (proj2 (proj2 (lone_quote_stripped ("K=" +:+ dq) "K" dq dquote
                         eq_refl eq_refl (or_introl eq_refl) eq_refl))).
Defined.

(** C8 as stated fails: the value that is one double quote does not stay;
    [GetEnv] returns the empty string and [LoadEnv] sets the variable to the
    empty string. *)
Lemma lone_quote_counterexample :
  let line := "K=" +:+ dq in
  let w := worldOf [line] None in
  ignored line = false
  ∧ strings.SplitN line "=" 2 = ["K"; dq]
  ∧ strings.TrimSpace dq = dq
  ∧ (env.GetEnv "K" ".env" w).1 = ("", None)
  ∧ environ (env.LoadEnv ".env" w).2 !! "K" = Some ""
  ∧ (env.GetEnv "K" ".env" w).1.1 ≠ dq.
Proof. vm_compute. by repeat split. Qed.

(** ** [LoadEnv] and the environment *)

Section Environment.

Implicit Types (e : gmap string string) (es : list (string * string))
  (k key v : string) (w : World) (lines : list string).

Lemma setenvAll_world es w :
  setenvAll w es = mkWorld (files w) (foldl setenvOn (environ w) es).
Proof.
  revert w. induction es as [|[k v] es IH]; intros w; simpl.
  - by destruct w.
  - unfold setenvAll in *. simpl. by rewrite IH, Setenv_world.
Qed.

Lemma LoadEnv_loop_setenvAll lines w :
  env.LoadEnv_loop lines w = (tt, setenvAll w (entriesOf lines)).
Proof. by rewrite LoadEnv_loop_writes, setenvAll_world. Qed.

Lemma lastWrite_snoc key es kv :
  lastWrite key (es ++ [kv]) =
  if os.validEnv kv.1 kv.2 && String.eqb kv.1 key
  then Some kv.2 else lastWrite key es.
Proof. unfold lastWrite. by rewrite foldl_app. Qed.

(** After the writes, a key holds what the last accepted write for it
    left, or what it held before when there was none. *)
Lemma lookup_writes es e key :
  foldl setenvOn e es !! key =
  match lastWrite key es with
  | Some v => Some v
  | None => e !! key
  end.
Proof.
  induction es as [|[k v] es IH] using rev_ind; [done|].
  rewrite foldl_app, lastWrite_snoc. simpl. unfold setenvOn at 1. simpl.
  destruct (os.validEnv k v); simpl; [|done].
  destruct (String.eqb_spec k key) as [->|Hne].
  - by rewrite lookup_insert_eq.
  - by rewrite lookup_insert_ne.
Qed.

Lemma writes_idempotent es e :
  foldl setenvOn (foldl setenvOn e es) es = foldl setenvOn e es.
Proof.
  apply map_eq. intros key. rewrite !lookup_writes.
  by destruct (lastWrite key es).
Qed.

Lemma lastWrite_last key v es1 es2 :
  os.validEnv key v = true →
  Forall (λ kv, kv.1 ≠ key) es2 →
  lastWrite key (es1 ++ (key, v) :: es2) = Some v.
Proof.
  intros Hv. induction es2 as [|[k' v'] es2 IH] using rev_ind; intros H2.
  - rewrite lastWrite_snoc. simpl. by rewrite Hv, String.eqb_refl.
  - apply Forall_app in H2 as [H2 Hk].
    apply Forall_cons in Hk as [Hk _]. simpl in Hk.
    rewrite app_comm_cons, app_assoc, lastWrite_snoc. simpl.
    apply String.eqb_neq in Hk. rewrite Hk, andb_false_r. by apply IH.
Qed.

Lemma entriesOf_app lines1 lines2 :
  entriesOf (lines1 ++ lines2) = entriesOf lines1 ++ entriesOf lines2.
Proof. apply omap_app. Qed.

Lemma entriesOf_no_match key lines :
  Forall (λ l, matchesKey key l = false) lines →
  Forall (λ kv, kv.1 ≠ key) (entriesOf lines).
Proof.
  induction 1 as [|l lines Hm _ IH]; [constructor|].
  unfold entriesOf, matchesKey in *. simpl.
  destruct (entryOf l) as [[k v]|]; [|done].
  constructor; [|done]. by apply String.eqb_neq.
Qed.

End Environment.

(** C2, as the code has it.  [LoadEnv] calls [os.Setenv] once for the entry
    of every line that has one, in the order of the lines, and every write
    that the environment accepts replaces what the key held.  So for a key
    and a value that the environment accepts (a key that is not empty and
    has no NUL byte, a value without NUL byte), when the value is that of
    the last line with an entry for the key, the key holds that value
    after [LoadEnv].  A write that [os.Setenv] refuses changes nothing and
    its error is dropped. *)
Theorem LoadEnv_last_wins (filename : string) (w : World) (f : File)
    (lines1 lines2 : list string) (line key value : string) :
  files w filename = inl f →
  tokens f = lines1 ++ line :: lines2 →
  entryOf line = Some (key, value) →
  Forall (λ l, matchesKey key l = false) lines2 →
  os.validEnv key value = true →
  (env.LoadEnv filename w).2 = setenvAll w (entriesOf (tokens f))
  ∧ environ (env.LoadEnv filename w).2 !! key = Some value.
Proof.
  intros Hf Ht He H2 Hv.
  assert ((env.LoadEnv filename w).2 = setenvAll w (entriesOf (tokens f))) as Hw.
  { unfold env.LoadEnv, bind, os.Open. rewrite Hf.
    by rewrite LoadEnv_loop_setenvAll. }
  split; [done|].
  rewrite Hw, setenvAll_world. simpl. rewrite lookup_writes, Ht.
  rewrite entriesOf_app. unfold entriesOf at 2. simpl. rewrite He.
  rewrite lastWrite_last; [done..|]. by apply entriesOf_no_match.
Qed.

Lemma LoadEnv_last_wins_witness :
  let w := worldOf ["A=1"; "A=2"] None in
  entryOf "A=2" = Some ("A", "2")
  ∧ os.validEnv "A" "2" = true
  ∧ environ (env.LoadEnv ".env" w).2 !! "A" = Some "2".
Proof.
  split; [reflexivity|]. split; [reflexivity|].
  exact (proj2 (LoadEnv_last_wins ".env" (worldOf ["A=1"; "A=2"] None)
                  (mkFile ["A=1"; "A=2"] None) ["A=1"] [] "A=2" "A" "2"
                  eq_refl eq_refl eq_refl (Forall_nil_2 _) eq_refl)).
Defined.

(** C2 as stated fails for a key that the environment refuses: both lines
    have an entry for the empty key, and after [LoadEnv] the empty key does
    not hold the value of the last of them (it holds nothing, since
    [os.Setenv] returns an error for an empty key and [LoadEnv] drops it). *)
Lemma LoadEnv_last_wins_counterexample :
  let w := worldOf ["=1"; "=2"] None in
  entryOf "=1" = Some ("", "1")
  ∧ entryOf "=2" = Some ("", "2")
  ∧ (os.Setenv "" "2" w).1 = Some (SyscallError "setenv")
  ∧ (env.LoadEnv ".env" w).1 = None
  ∧ environ (env.LoadEnv ".env" w).2 !! "" = None
  ∧ environ (env.LoadEnv ".env" w).2 !! "" ≠ Some "2".
Proof. vm_compute. by repeat split. Qed.

(** C9.  Running [LoadEnv] on a file and then once more on the same file
    gives the same result and leaves the world, the environment with it,
    as the first run left it: this for every file, also one that cannot be
    opened or whose scan ends with an error, and every starting
    environment. *)
Theorem LoadEnv_idempotent (filename : string) (w : World) :
  env.LoadEnv filename (env.LoadEnv filename w).2 = env.LoadEnv filename w.
Proof.
  unfold env.LoadEnv, bind, os.Open.
  destruct (files w filename) as [f|err] eqn:Hf; simpl.
  - rewrite !LoadEnv_loop_writes. simpl. rewrite Hf. simpl.
    rewrite !LoadEnv_loop_writes. simpl. by rewrite writes_idempotent.
  - by rewrite Hf.
Qed.

(** ** [GetEnv] *)

Lemma GetEnv_loop_error (key : string) (lines : list string)
    (final : option error) (w : World) :
  (env.GetEnv_loop key lines final w).1.2 =
  if existsb (matchesKey key) lines then None else final.
Proof.
  induction lines as [|line rest IH]; [done|].
  rewrite GetEnv_loop_cons. simpl. unfold matchesKey at 1.
  destruct (entryOf line) as [[k v]|]; [|done].
  by destruct (String.eqb k key).
Qed.

(** C3.  When some line of the file has an entry for the target key (a
    candidate line whose trimmed text before the first [=] is the key, byte
    for byte), [GetEnv] returns the value of the first such line, with no
    error, and leaves the world as it was.  The loop stops there: what the
    scanner would deliver after that line, lines or an error, has no
    bearing on the result. *)
Theorem GetEnv_first_wins (key filename : string) (w : World) (f : File) :
  files w filename = inl f →
  (∃ l v, l ∈ tokens f ∧ entryOf l = Some (key, v)) →
  ∃ lines1 line lines2 value,
    tokens f = lines1 ++ line :: lines2
    ∧ Forall (λ l, ∀ v, entryOf l ≠ Some (key, v)) lines1
    ∧ entryOf line = Some (key, value)
    ∧ env.GetEnv key filename w = ((value, None), w)
    ∧ ∀ lines2' final',
        env.GetEnv_loop key (lines1 ++ line :: lines2') final' w
        = ((value, None), w).
Proof.
  intros Hf (l & v & Hin & Hl).
  destruct (first_match key (tokens f)) as [Hno|(l1 & x & l2 & Ht & H1 & Hx)].
  - rewrite Forall_forall in Hno. specialize (Hno l Hin).
    assert (matchesKey key l = true) as Hm by (apply matchesKey_true; eauto).
    congruence.
  - apply matchesKey_true in Hx as [value Hx].
    exists l1, x, l2, value. split_and!; [done| |done| |].
    + eapply Forall_impl; [exact H1|]. intros y Hy v' Hv'.
      assert (matchesKey key y = true) as Hm by (apply matchesKey_true; eauto).
      congruence.
    + unfold env.GetEnv, bind, os.Open. rewrite Hf, Ht.
      by apply GetEnv_loop_first.
    + intros. by apply GetEnv_loop_first.
Qed.

Lemma GetEnv_first_wins_witness :
  let w := worldOf ["A=1"; "A=2"] None in
  "A=2" ∈ ["A=1"; "A=2"]
  ∧ entryOf "A=2" = Some ("A", "2")
  ∧ ∃ lines1 line lines2 value,
      ["A=1"; "A=2"] = lines1 ++ line :: lines2
      ∧ env.GetEnv "A" ".env" w = ((value, None), w).
Proof.
  assert ("A=2" ∈ ["A=1"; "A=2"]) as Hin by (right; left).
  split; [exact Hin|]. split; [reflexivity|].
  destruct (GetEnv_first_wins "A" ".env" (worldOf ["A=1"; "A=2"] None)
              (mkFile ["A=1"; "A=2"] None) eq_refl
              (ex_intro _ "A=2" (ex_intro _ "2" (conj Hin eq_refl))))
    as (lines1 & line & lines2 & value & Ht & _ & _ & Hg & _).
  exists lines1, line, lines2, value. split; [exact Ht|exact Hg].
Defined.

Example GetEnv_duplicate_keys :
  (env.GetEnv "A" ".env" (worldOf ["A=1"; "A=2"] None)).1 = ("1", None).
Proof. reflexivity. Qed.

Example GetEnv_case_sensitive :
  (env.GetEnv "a" ".env" (worldOf ["A=1"; "a=2"] None)).1 = ("2", None).
Proof. reflexivity. Qed.

Example GetEnv_stops_before_error :
  (env.GetEnv "A" ".env" (worldOf ["A=1"] (Some ReadError))).1 = ("1", None).
Proof. reflexivity. Qed.

(** C4, as the code has it.  The error that [LoadEnv] returns is the error
    of [os.Open] when the file cannot be opened and otherwise the error of
    the scanner, if any: the lines, malformed or not, and the outcome of
    [os.Setenv] have no part in it.  The error that [GetEnv] returns is the
    error of [os.Open], or the error with which the scan ended when no line
    delivered before had an entry for the key; in every other case it
    returns no error, also when a line has an entry for the key and the
    scan would end, or the read has ended, with an error.  When no line of
    the file has an entry for the key, [GetEnv] returns the empty string
    together with the scanner's error, so no error at all when the file was
    read to its end. *)
Theorem errors_are_io_errors (key filename : string) (w : World) :
  (env.LoadEnv filename w).1 =
    match files w filename with
    | inr err => Some err
    | inl f => scanErr f
    end
  ∧ (env.GetEnv key filename w).1.2 =
    match files w filename with
    | inr err => Some err
    | inl f => if existsb (matchesKey key) (tokens f) then None else scanErr f
    end
  ∧ (∀ f, files w filename = inl f →
          Forall (λ l, matchesKey key l = false) (tokens f) →
          (env.GetEnv key filename w).1 = ("", scanErr f)).
Proof.
  unfold env.LoadEnv, env.GetEnv, bind, os.Open. split_and!.
  - destruct (files w filename) as [f|err]; [|done].
    by rewrite LoadEnv_loop_writes.
  - destruct (files w filename) as [f|err]; [|done].
    apply GetEnv_loop_error.
  - intros f -> Hno. by rewrite GetEnv_loop_absent.
Qed.

(** C4 as stated fails for [GetEnv]: the read of the file fails, as the
    error that [LoadEnv] returns shows, after the scanner has delivered the
    line [A=1]; [GetEnv] returns the value of that line and no error. *)
Lemma errors_exactly_counterexample :
  let w := worldOf ["A=1"] (Some ReadError) in
  files w ".env" = inl (mkFile ["A=1"] (Some ReadError))
  ∧ (env.LoadEnv ".env" w).1 = Some ReadError
  ∧ (env.GetEnv "A" ".env" w).1 = ("1", None)
  ∧ (env.GetEnv "A" ".env" w).1.2 ≠ Some ReadError.
Proof. vm_compute. by repeat split. Qed.

Example LoadEnv_malformed_line :
  let r := env.LoadEnv ".env" (worldOf ["KEY1=value1"; "INVALID_LINE"; "KEY2=value2"] None) in
  r.1 = None ∧ environ r.2 = {[ "KEY1" := "value1"; "KEY2" := "value2" ]}.
Proof. vm_compute. done. Qed.

Example GetEnv_absent_key :
  (env.GetEnv "TEST_KEY" ".env" (worldOf ["OTHER_KEY=value"] None)).1 = ("", None).
Proof. reflexivity. Qed.

Example LoadEnv_missing_file :
  (env.LoadEnv "non_existent_file.env" (worldOf [] None)).1
  = Some (PathError "open" "non_existent_file.env").
Proof. reflexivity. Qed.

Example GetEnv_missing_file :
  (env.GetEnv "ANY_KEY" "non_existent_file.env" (worldOf [] None)).1
  = ("", Some (PathError "open" "non_existent_file.env")).
Proof. reflexivity. Qed.

(** C7.  [GetEnv] leaves the world, and so the environment of the process,
    exactly as it was, whatever it returns; and what it returns does not
    depend on the environment. *)
Theorem GetEnv_frame (key filename : string) (w : World) :
  (env.GetEnv key filename w).2 = w
  ∧ ∀ e : gmap string string,
      (env.GetEnv key filename (mkWorld (files w) e)).1
      = (env.GetEnv key filename w).1.
Proof.
  unfold env.GetEnv, bind, os.Open. simpl. split.
  - destruct (files w filename) as [f|err]; [|done].
    apply (GetEnv_loop_world key (tokens f) (scanErr f) w w).
  - intros e. destruct (files w filename) as [f|err]; [|done].
    apply GetEnv_loop_world.
Qed.

(** ** The cases of [env_test.go], on the bytes of the files *)

Example scan_lines :
  bufio.fileOf (unlines ["A=1"; ""; "# c"; "B=2"])
  = mkFile ["A=1"; ""; "# c"; "B=2"] None.
Proof. vm_compute. reflexivity. Qed.

Example scan_crlf_and_open_last_line :
  bufio.fileOf ("A=1" +:+ String "013" (String "010" "B=2"))
  = mkFile ["A=1"; "B=2"] None.
Proof. vm_compute. reflexivity. Qed.

Example TestLoadEnv_basic_variables :
  let r := env.LoadEnv ".env"
             (worldOfContent (unlines ["DB_HOST=localhost"; "DB_PORT=5432"])) in
  r.1 = None
  ∧ (os.Getenv "DB_HOST" r.2).1 = "localhost"
  ∧ (os.Getenv "DB_PORT" r.2).1 = "5432".
Proof. vm_compute. done. Qed.

Example TestLoadEnv_comments_and_empty_lines :
  let r := env.LoadEnv ".env"
             (worldOfContent
                (unlines ["# Database settings"; "DB_HOST=localhost"; "";
                          "DB_PORT=5432"])) in
  r.1 = None
  ∧ environ r.2 = {[ "DB_HOST" := "localhost"; "DB_PORT" := "5432" ]}.
Proof. vm_compute. done. Qed.

Example TestLoadEnv_quoted_values :
  let r := env.LoadEnv ".env"
             (worldOfContent
                (unlines ["MESSAGE=" +:+ dq +:+ "Hello, World!" +:+ dq;
                          "PATH='usr/local/bin'"])) in
  r.1 = None
  ∧ environ r.2 = {[ "MESSAGE" := "Hello, World!"; "PATH" := "usr/local/bin" ]}.
Proof. vm_compute. done. Qed.

Example TestLoadEnv_empty_file :
  env.LoadEnv ".env" (worldOfContent "") = (None, worldOfContent "").
Proof. vm_compute. reflexivity. Qed.

Example TestLoadEnv_duplicate_keys :
  environ (env.LoadEnv ".env" (worldOfContent (unlines ["A=1"; "A=2"]))).2
  = {[ "A" := "2" ]}.
Proof. vm_compute. reflexivity. Qed.

Example TestGetEnv_existing_key :
  (env.GetEnv "TEST_KEY" ".env"
     (worldOfContent (unlines ["TEST_KEY=test_value"]))).1
  = ("test_value", None).
Proof. vm_compute. reflexivity. Qed.

Example TestGetEnv_quoted_value :
  (env.GetEnv "QUOTED_KEY" ".env"
     (worldOfContent (unlines ["QUOTED_KEY=" +:+ dq +:+ "quoted value" +:+ dq]))).1
  = ("quoted value", None).
Proof. vm_compute. reflexivity. Qed.

Example TestGetEnv_with_comments :
  (env.GetEnv "TEST_KEY" ".env"
     (worldOfContent (unlines ["# Comment"; "TEST_KEY=test_value"]))).1
  = ("test_value", None).
Proof. vm_compute. reflexivity. Qed.

(** * Further properties *)

(** ** White space and [strings.TrimSpace] *)

Section SpaceFacts.

Implicit Types (s r a b : string) (c d : ascii).

Lemma rev_app_append s r : String.rev_app s r = String.rev s +:+ r.
Proof.
  revert r. induction s as [|c s IH]; intros r; [done|].
  unfold String.rev. simpl. rewrite (IH (String c r)), (IH (String c "")).
  by rewrite app_assoc'.
Qed.

Lemma rev_cons c s : String.rev (String c s) = String.rev s +:+ String c "".
Proof. unfold String.rev at 1. simpl. apply rev_app_append. Qed.

Lemma rev_snoc s c : String.rev (s +:+ String c "") = String c (String.rev s).
Proof.
  induction s as [|d s IH]; [done|].
  rewrite app_cons, !rev_cons, IH. done.
Qed.

Lemma rev_involutive s : String.rev (String.rev s) = s.
Proof.
  induction s as [|c s IH]; [done|]. by rewrite rev_cons, rev_snoc, IH.
Qed.

Lemma rev_eq_cons s c r : String.rev s = String c r → s = String.rev r +:+ String c "".
Proof. intros H. by rewrite <- (rev_involutive s), H, rev_cons. Qed.

Lemma slice_drop a b : slice (a +:+ b) (len a) (len (a +:+ b)) = b.
Proof.
  unfold slice. rewrite len_app.
  replace (len a + len b - len a) with (len b) by lia.
  rewrite substring_suffix. apply substring_all.
Qed.

Lemma slice_take a b : slice (a +:+ b) 0 (len (a +:+ b) - len b) = a.
Proof.
  rewrite len_app. replace (len a + len b - len b) with (len a) by lia.
  apply slice_prefix.
Qed.

(** The bytes of the white-space runes. *)
Lemma asciiSpace_ascii c : strings.asciiSpace c = true → nonASCII c = false.
Proof.
  unfold strings.asciiSpace, nonASCII. cbv zeta.
  rewrite orb_true_iff, andb_true_iff, !N.leb_le, N.eqb_eq, N.leb_gt. lia.
Qed.

Lemma space2_bytes c d :
  strings.space2 c d = true →
  strings.asciiSpace c = false ∧ nonASCII c = true
  ∧ strings.asciiSpace d = false ∧ nonASCII d = true.
Proof.
  unfold strings.space2, strings.asciiSpace, nonASCII. cbv zeta beta iota.
  rewrite andb_true_iff, orb_true_iff, !N.eqb_eq.
  rewrite !orb_false_iff, !andb_false_iff, !N.leb_gt, !N.eqb_neq, !N.leb_le. lia.
Qed.

Lemma space3_bytes c d e :
  strings.space3 c d e = true →
  strings.asciiSpace c = false ∧ nonASCII c = true ∧ strings.space2 c d = false
  ∧ strings.asciiSpace e = false ∧ nonASCII e = true ∧ strings.space2 d e = false.
Proof.
  unfold strings.space3, strings.space2, strings.asciiSpace, nonASCII.
  cbv zeta beta iota.
  rewrite !orb_true_iff, !andb_true_iff, !orb_true_iff, !andb_true_iff,
    !N.eqb_eq, !N.leb_le.
  rewrite !orb_false_iff, !andb_false_iff, !orb_false_iff, !N.leb_gt, !N.eqb_neq.
  lia.
Qed.

(** The rune that [leadingSpace] finds is a prefix of that many bytes. *)
Lemma leadingSpace_cases s :
  strings.leadingSpace s = 0
  ∨ ∃ rune rest, s = rune +:+ rest ∧ strings.leadingSpace s = len rune
                 ∧ 0 < len rune ∧ strings.leadingSpace rune = len rune.
Proof.
  destruct s as [|b0 r0]; [by left|]. simpl.
  destruct (strings.asciiSpace b0) eqn:E0.
  { right. exists (String b0 ""), r0. simpl. rewrite E0. split_and!; [done..|lia|done]. }
  destruct r0 as [|b1 r1]; [by left|].
  destruct (strings.space2 b0 b1) eqn:E1.
  { right. exists (String b0 (String b1 "")), r1. simpl. rewrite E0, E1.
    split_and!; [done..|lia|done]. }
  destruct r1 as [|b2 r2]; [by left|].
  destruct (strings.space3 b0 b1 b2) eqn:E2; [|by left].
  right. exists (String b0 (String b1 (String b2 ""))), r2. simpl.
  rewrite E0, E1, E2. split_and!; [done..|lia|done].
Qed.

(** The rune that [trailingSpace] finds is a suffix of that many bytes. *)
Lemma trailingSpace_cases s :
  strings.trailingSpace s = 0
  ∨ ∃ rest rune, s = rest +:+ rune ∧ strings.trailingSpace s = len rune
                 ∧ 0 < len rune ∧ strings.leadingSpace rune = len rune.
Proof.
  unfold strings.trailingSpace.
  destruct (String.rev s) as [|b0 r0] eqn:Hr; [by left|].
  apply rev_eq_cons in Hr.
  destruct (strings.asciiSpace b0) eqn:E0.
  { right. exists (String.rev r0), (String b0 ""). simpl. rewrite E0.
    split_and!; [done..|lia|done]. }
  destruct r0 as [|b1 r1]; [by left|].
  rewrite rev_cons, app_assoc' in Hr.
  destruct (strings.space2 b1 b0) eqn:E1.
  { right. exists (String.rev r1), (String b1 (String b0 "")).
    destruct (space2_bytes _ _ E1) as (F1 & _).
    simpl. rewrite F1, E1. split_and!; [done..|lia|done]. }
  destruct r1 as [|b2 r2]; [by left|].
  rewrite rev_cons, app_assoc' in Hr.
  destruct (strings.space3 b2 b1 b0) eqn:E2; [|by left].
  right. exists (String.rev r2), (String b2 (String b1 (String b0 ""))).
  destruct (space3_bytes _ _ _ E2) as (F1 & _ & F2 & _).
  simpl. rewrite F1, F2, E2. split_and!; [done..|lia|done].
Qed.

Lemma spaceRun_one rune :
  0 < len rune → strings.leadingSpace rune = len rune → spaceRun rune.
Proof.
  intros. rewrite <- (app_empty_r rune). constructor; [done..|constructor].
Qed.

Lemma spaceRun_app a b : spaceRun a → spaceRun b → spaceRun (a +:+ b).
Proof.
  induction 1 as [|rune rest H0 H1 _ IH]; intros Hb; [done|].
  rewrite app_assoc'. constructor; auto.
Qed.

(** The loop of [TrimLeftFunc] cuts a run of white space and stops where no
    white-space rune starts. *)
Lemma trimLeftSpace_split fuel s :
  len s ≤ fuel →
  ∃ a, s = a +:+ strings.trimLeftSpace fuel s ∧ spaceRun a
       ∧ strings.leadingSpace (strings.trimLeftSpace fuel s) = 0.
Proof.
  revert s. induction fuel as [|fuel IH]; intros s Hlen.
  { destruct s; [|simpl in Hlen; lia]. exists "". split_and!; [done|constructor|done]. }
  simpl. destruct (leadingSpace_cases s) as [H0|(rune & rest & -> & Hw & Hpos & Hrune)].
  { rewrite H0. exists "". split_and!; [done|constructor|done]. }
  rewrite Hw. destruct (len rune) as [|n] eqn:Hn; [lia|]. rewrite <- Hn in *.
  rewrite slice_drop.
  destruct (IH rest) as (a & Hrest & Ha & Hlead).
  { rewrite len_app in Hlen. lia. }
  exists (rune +:+ a). split_and!; [|constructor; [lia|done..]|done].
  by rewrite app_assoc', <- Hrest.
Qed.

(** The loop of [TrimRightFunc] likewise, at the right end. *)
Lemma trimRightSpace_split fuel s :
  len s ≤ fuel →
  ∃ b, s = strings.trimRightSpace fuel s +:+ b ∧ spaceRun b
       ∧ strings.trailingSpace (strings.trimRightSpace fuel s) = 0.
Proof.
  revert s. induction fuel as [|fuel IH]; intros s Hlen.
  { destruct s; [|simpl in Hlen; lia]. exists "". split_and!; [done|constructor|done]. }
  simpl. destruct (trailingSpace_cases s) as [H0|(rest & rune & -> & Hw & Hpos & Hrune)].
  { rewrite H0. exists "". split_and!; [by rewrite app_empty_r|constructor|done]. }
  rewrite Hw. destruct (len rune) as [|n] eqn:Hn; [lia|]. rewrite <- Hn in *.
  rewrite slice_take.
  destruct (IH rest) as (b & Hrest & Hb & Htrail).
  { rewrite len_app in Hlen. lia. }
  exists (b +:+ rune). split_and!; [| |done].
  - by rewrite <- app_assoc', <- Hrest.
  - apply spaceRun_app; [done|]. apply spaceRun_one; [lia|done].
Qed.

Lemma leadingSpace_prefix r b :
  strings.leadingSpace (r +:+ b) = 0 → strings.leadingSpace r = 0.
Proof.
  destruct r as [|b0 [|b1 [|b2 r]]]; [done|..];
    rewrite ?app_cons, ?app_empty_l; simpl;
    destruct (strings.asciiSpace b0); try done.
  - destruct (strings.space2 b0 b1); [done|].
    destruct b as [|c2 b]; [done|].
    by destruct (strings.space3 b0 b1 c2).
Qed.

Lemma trimLeftSpace_fuel f1 f2 s :
  len s ≤ f1 → len s ≤ f2 →
  strings.trimLeftSpace f1 s = strings.trimLeftSpace f2 s.
Proof.
  revert f2 s. induction f1 as [|f1 IH]; intros f2 s H1 H2.
  { destruct s; [|simpl in H1; lia]. by destruct f2. }
  destruct f2 as [|f2].
  { destruct s; [done|simpl in H2; lia]. }
  simpl. destruct (leadingSpace_cases s) as [H0|(rune & rest & -> & Hw & Hpos & _)].
  { by rewrite H0. }
  rewrite Hw. destruct (len rune) as [|n] eqn:Hn; [lia|]. rewrite <- Hn in *.
  rewrite slice_drop. rewrite len_app in H1, H2. apply IH; lia.
Qed.

Lemma trimRightSpace_fuel f1 f2 s :
  len s ≤ f1 → len s ≤ f2 →
  strings.trimRightSpace f1 s = strings.trimRightSpace f2 s.
Proof.
  revert f2 s. induction f1 as [|f1 IH]; intros f2 s H1 H2.
  { destruct s; [|simpl in H1; lia]. by destruct f2. }
  destruct f2 as [|f2].
  { destruct s; [done|simpl in H2; lia]. }
  simpl. destruct (trailingSpace_cases s) as [H0|(rest & rune & -> & Hw & Hpos & _)].
  { by rewrite H0. }
  rewrite Hw. destruct (len rune) as [|n] eqn:Hn; [lia|]. rewrite <- Hn in *.
  rewrite slice_take. rewrite len_app in H1, H2. apply IH; lia.
Qed.

Lemma trimLeftSpace_stop fuel s :
  strings.leadingSpace s = 0 → strings.trimLeftSpace fuel s = s.
Proof. intros H. destruct fuel; [done|]. simpl. by rewrite H. Qed.

Lemma trimRightSpace_stop fuel s :
  strings.trailingSpace s = 0 → strings.trimRightSpace fuel s = s.
Proof. intros H. destruct fuel; [done|]. simpl. by rewrite H. Qed.

Lemma leadingSpace_ascii c r :
  nonASCII c = false → strings.asciiSpace c = false →
  strings.leadingSpace (String c r) = 0.
Proof.
  intros Hc Hs. simpl. rewrite Hs.
  destruct r as [|b1 r]; [done|].
  destruct (strings.space2 c b1) eqn:E1.
  { apply space2_bytes in E1 as (_ & ? & _). congruence. }
  destruct r as [|b2 r]; [done|].
  destruct (strings.space3 c b1 b2) eqn:E2; [|done].
  apply space3_bytes in E2 as (_ & ? & _). congruence.
Qed.

Lemma trailingSpace_ascii s c :
  nonASCII c = false → strings.asciiSpace c = false →
  strings.trailingSpace (s +:+ String c "") = 0.
Proof.
  intros Hc Hs. unfold strings.trailingSpace. rewrite rev_snoc, Hs.
  destruct (String.rev s) as [|b1 r]; [done|].
  destruct (strings.space2 b1 c) eqn:E1.
  { apply space2_bytes in E1 as (_ & _ & _ & ?). congruence. }
  destruct r as [|b2 r]; [done|].
  destruct (strings.space3 b2 b1 c) eqn:E2; [|done].
  apply space3_bytes in E2 as (_ & _ & _ & _ & ? & _). congruence.
Qed.

Lemma trailingSpace_asciiSpace s c :
  strings.asciiSpace c = true → strings.trailingSpace (s +:+ String c "") = 1.
Proof. intros Hs. unfold strings.trailingSpace. by rewrite rev_snoc, Hs. Qed.

Lemma TrimSpace_stop_snoc fuel a c :
  strings.TrimSpace_stop (S fuel) (a +:+ String c "") =
  if nonASCII c then strings.TrimRightFunc_IsSpace (a +:+ String c "")
  else if strings.asciiSpace c then strings.TrimSpace_stop fuel a
  else a +:+ String c "".
Proof. simpl. by rewrite lastByte_snoc, dropLast_snoc. Qed.

Lemma TrimRightFunc_snoc_space a c :
  strings.asciiSpace c = true →
  strings.TrimRightFunc_IsSpace (a +:+ String c "")
  = strings.TrimRightFunc_IsSpace a.
Proof.
  intros Hs. unfold strings.TrimRightFunc_IsSpace. rewrite len_snoc. simpl.
  rewrite trailingSpace_asciiSpace by done.
  change (slice (a +:+ String c "") 0 (len (a +:+ String c "") - 1))
    with (dropLast (a +:+ String c "")).
  by rewrite dropLast_snoc.
Qed.

Lemma TrimRightFunc_snoc_ascii a c :
  nonASCII c = false → strings.asciiSpace c = false →
  strings.TrimRightFunc_IsSpace (a +:+ String c "") = a +:+ String c "".
Proof.
  intros Hc Hs. unfold strings.TrimRightFunc_IsSpace.
  apply trimRightSpace_stop. by apply trailingSpace_ascii.
Qed.

(** The second loop of [TrimSpace] computes [TrimRightFunc]. *)
Lemma TrimSpace_stop_eq fuel s :
  len s ≤ fuel → strings.TrimSpace_stop fuel s = strings.TrimRightFunc_IsSpace s.
Proof.
  revert s. induction fuel as [|fuel IH]; intros s Hlen.
  { by destruct s; [|simpl in Hlen; lia]. }
  destruct (decide (s = "")) as [->|Hne]; [done|].
  destruct (snoc_exists s Hne) as (a & c & ->).
  rewrite len_snoc in Hlen. rewrite TrimSpace_stop_snoc.
  destruct (nonASCII c) eqn:Hc; [done|].
  destruct (strings.asciiSpace c) eqn:Hs.
  - rewrite TrimRightFunc_snoc_space by done. apply IH. lia.
  - by rewrite TrimRightFunc_snoc_ascii.
Qed.

Lemma TrimSpace_cons c r :
  strings.TrimSpace (String c r) =
  if nonASCII c then strings.TrimFunc_IsSpace (String c r)
  else if strings.asciiSpace c then strings.TrimSpace r
  else strings.TrimSpace_stop (len (String c r)) (String c r).
Proof. reflexivity. Qed.

Lemma TrimFunc_cons_space c r :
  strings.asciiSpace c = true →
  strings.TrimFunc_IsSpace (String c r) = strings.TrimFunc_IsSpace r.
Proof.
  intros Hs. unfold strings.TrimFunc_IsSpace.
  assert (strings.trimLeftSpace (len (String c r)) (String c r)
          = strings.trimLeftSpace (len r) r) as ->; [|done].
  simpl. rewrite Hs.
  change (slice (String c r) 1 (S (len r)))
    with (slice (String c "" +:+ r) (len (String c "")) (len (String c "" +:+ r))).
  by rewrite slice_drop.
Qed.

(** The ASCII fast path of [TrimSpace] computes [TrimFunc]. *)
Lemma TrimSpace_TrimFunc s : strings.TrimSpace s = strings.TrimFunc_IsSpace s.
Proof.
  induction s as [|c r IH]; [done|]. rewrite TrimSpace_cons.
  destruct (nonASCII c) eqn:Hc; [done|].
  destruct (strings.asciiSpace c) eqn:Hs.
  - by rewrite IH, TrimFunc_cons_space.
  - rewrite TrimSpace_stop_eq by done.
    unfold strings.TrimFunc_IsSpace, strings.TrimRightFunc_IsSpace.
    by rewrite trimLeftSpace_stop by (by apply leadingSpace_ascii).
Qed.

(** [TrimSpace] cuts a run of white space at each end and nothing else, and
    what is left neither starts nor ends with a white-space rune. *)
Lemma TrimSpace_split s :
  ∃ a b, s = a +:+ strings.TrimSpace s +:+ b ∧ spaceRun a ∧ spaceRun b
         ∧ strings.leadingSpace (strings.TrimSpace s) = 0
         ∧ strings.trailingSpace (strings.TrimSpace s) = 0.
Proof.
  rewrite TrimSpace_TrimFunc. unfold strings.TrimFunc_IsSpace.
  destruct (trimLeftSpace_split (len s) s) as (a & Hs & Ha & Hl); [done|].
  set (t := strings.trimLeftSpace (len s) s) in *.
  destruct (trimRightSpace_split (len t) t) as (b & Ht & Hb & Hr); [done|].
  exists a, b. split_and!; [|done..| |done].
  - by rewrite <- Ht.
  - apply (leadingSpace_prefix _ b). by rewrite <- Ht.
Qed.

Lemma TrimSpace_fixed s :
  strings.leadingSpace s = 0 → strings.trailingSpace s = 0 →
  strings.TrimSpace s = s.
Proof.
  intros Hl Hr. rewrite TrimSpace_TrimFunc. unfold strings.TrimFunc_IsSpace.
  rewrite trimLeftSpace_stop by done. by apply trimRightSpace_stop.
Qed.

Lemma TrimSpace_idempotent s :
  strings.TrimSpace (strings.TrimSpace s) = strings.TrimSpace s.
Proof.
  destruct (TrimSpace_split s) as (a & b & _ & _ & _ & Hl & Hr).
  by apply TrimSpace_fixed.
Qed.

Lemma occurs_app c a s b : occurs c s → occurs c (a +:+ s +:+ b).
Proof.
  intros (x & y & ->). exists (a +:+ x), (y +:+ b).
  by rewrite !app_assoc', app_cons.
Qed.

End SpaceFacts.

(** ** More on [LoadEnv] and [GetEnv] *)

Lemma LoadEnv_opened filename w f :
  files w filename = inl f →
  env.LoadEnv filename w
  = (scanErr f,
     mkWorld (files w) (foldl setenvOn (environ w) (entriesOf (tokens f)))).
Proof.
  intros Hf. unfold env.LoadEnv, bind, os.Open. rewrite Hf.
  by rewrite LoadEnv_loop_writes.
Qed.

Lemma LoadEnv_not_opened filename w err :
  files w filename = inr err → env.LoadEnv filename w = (Some err, w).
Proof. intros Hf. unfold env.LoadEnv, bind, os.Open. by rewrite Hf. Qed.

Lemma lastWrite_Some key v (es : list (string * string)) :
  lastWrite key es = Some v → (key, v) ∈ es ∧ os.validEnv key v = true.
Proof.
  induction es as [|[k' v'] es IH] using rev_ind; [done|].
  rewrite lastWrite_snoc. simpl.
  destruct (os.validEnv k' v') eqn:Hv; simpl.
  - destruct (String.eqb_spec k' key) as [->|Hne].
    + intros [= ->]. split; [|done]. apply elem_of_app. right. by left.
    + intros [? ?]%IH. split; [|done]. apply elem_of_app. by left.
  - intros [? ?]%IH. split; [|done]. apply elem_of_app. by left.
Qed.

Lemma lastWrite_None key (es : list (string * string)) :
  Forall (λ kv, kv.1 ≠ key) es → lastWrite key es = None.
Proof.
  induction es as [|[k' v'] es IH] using rev_ind; [done|].
  intros [Hes Hk]%Forall_app. apply Forall_cons in Hk as [Hk _]. simpl in Hk.
  rewrite lastWrite_snoc. simpl. apply String.eqb_neq in Hk.
  rewrite Hk, andb_false_r. auto.
Qed.

Lemma lastWrite_same key v (es : list (string * string)) :
  (key, v) ∈ es → (∀ v', (key, v') ∈ es → v' = v) →
  os.validEnv key v = true → lastWrite key es = Some v.
Proof.
  intros Hin Hsame Hv. induction es as [|[k' v'] es IH] using rev_ind.
  { by apply elem_of_nil in Hin. }
  rewrite lastWrite_snoc. simpl.
  destruct (String.eqb_spec k' key) as [->|Hne].
  - rewrite (Hsame v') by (apply elem_of_app; right; by left).
    by rewrite Hv.
  - rewrite andb_false_r. apply IH.
    + apply elem_of_app in Hin as [Hin|Hin]; [done|].
      apply list_elem_of_singleton in Hin. congruence.
    + intros v'' Hin'. apply Hsame, elem_of_app. by left.
Qed.

Lemma entriesOf_elem k v (lines : list string) :
  (k, v) ∈ entriesOf lines ↔ ∃ line, line ∈ lines ∧ entryOf line = Some (k, v).
Proof. unfold entriesOf. apply list_elem_of_omap. Qed.

(** Every entry has a key that [TrimSpace] left and a value that [Trim]
    left. *)
Lemma entryOf_key_trimmed line k v :
  entryOf line = Some (k, v) →
  strings.leadingSpace k = 0 ∧ strings.trailingSpace k = 0
  ∧ ¬ occurs "=" k.
Proof.
  intros (_ & p0 & p1 & Hs & -> & _)%entryOf_Some.
  destruct (TrimSpace_split p0) as (a & b & Hp0 & _ & _ & Hl & Hr).
  split_and!; [done..|].
  intros Hk. destruct (SplitN_2 line "=") as [[_ HS]|(x & y & _ & Hx & HS)];
    rewrite HS in Hs; [done|]. injection Hs as -> ->.
  apply IndexByte_None in Hx. apply Hx. rewrite Hp0. by apply occurs_app.
Qed.

(** X1.  A variable for which no line of the file has an entry holds after
    [LoadEnv] what it held before. *)
Theorem LoadEnv_keeps_other_variables (filename key : string) (w : World)
    (f : File) :
  files w filename = inl f →
  Forall (λ l, ∀ v, entryOf l ≠ Some (key, v)) (tokens f) →
  environ (env.LoadEnv filename w).2 !! key = environ w !! key.
Proof.
  intros Hf Hno. rewrite (LoadEnv_opened _ _ _ Hf). simpl.
  rewrite lookup_writes, lastWrite_None; [done|].
  apply Forall_forall. intros [k v] Hin Hk. simpl in Hk. subst k.
  apply entriesOf_elem in Hin as (line & Hl & He).
  rewrite Forall_forall in Hno. by apply (Hno line Hl v).
Qed.

Lemma LoadEnv_keeps_other_variables_witness :
  let w := mkWorld (openIn [(".env", mkFile ["A=1"; "# B=2"] None)])
             {[ "B" := "old" ]} in
  environ (env.LoadEnv ".env" w).2 !! "B" = Some "old".
Proof.
  intros w.
  refine (eq_trans (LoadEnv_keeps_other_variables ".env" "B" w
                      (mkFile ["A=1"; "# B=2"] None) eq_refl _) _);
    [|reflexivity].
  repeat constructor; intros v; vm_compute; discriminate.
Defined.

(** X2.  [LoadEnv] never unsets a variable: one that is set before the call
    is set after it, whatever the file; and the call leaves the files as
    they are. *)
Theorem LoadEnv_never_unsets (filename key : string) (w : World) :
  is_Some (environ w !! key) →
  is_Some (environ (env.LoadEnv filename w).2 !! key)
  ∧ files (env.LoadEnv filename w).2 = files w.
Proof.
  intros Hk. destruct (files w filename) as [f|err] eqn:Hf.
  - rewrite (LoadEnv_opened _ _ _ Hf). simpl. split; [|done].
    rewrite lookup_writes. by destruct (lastWrite key _).
  - by rewrite (LoadEnv_not_opened _ _ _ Hf).
Qed.

Lemma LoadEnv_never_unsets_witness :
  let w := mkWorld (openIn [(".env", mkFile ["B="; "=x"] (Some ReadError))])
             {[ "B" := "old"; "C" := "c" ]} in
  is_Some (environ (env.LoadEnv ".env" w).2 !! "C").
Proof.
  intros w. apply (LoadEnv_never_unsets ".env" "C" w). vm_compute. eauto.
Defined.

(** X3.  A variable whose value [LoadEnv] changes is the key of an entry of
    some line of the file, holds the value of that entry, is a name that
    [os.Setenv] accepts, and has no white space at either end. *)
Theorem LoadEnv_changes_only_entry_keys (filename key : string) (w : World) :
  environ (env.LoadEnv filename w).2 !! key ≠ environ w !! key →
  ∃ f line value,
    files w filename = inl f ∧ line ∈ tokens f
    ∧ entryOf line = Some (key, value)
    ∧ environ (env.LoadEnv filename w).2 !! key = Some value
    ∧ os.validEnv key value = true
    ∧ strings.leadingSpace key = 0 ∧ strings.trailingSpace key = 0.
Proof.
  destruct (files w filename) as [f|err] eqn:Hf.
  2:{ by rewrite (LoadEnv_not_opened _ _ _ Hf). }
  rewrite (LoadEnv_opened _ _ _ Hf). simpl. rewrite lookup_writes.
  destruct (lastWrite key (entriesOf (tokens f))) as [v|] eqn:Hw; [|done].
  intros _. apply lastWrite_Some in Hw as [Hin Hv].
  apply entriesOf_elem in Hin as (line & Hl & He).
  destruct (entryOf_key_trimmed _ _ _ He) as (? & ? & _).
  by exists f, line, v.
Qed.

Lemma LoadEnv_changes_only_entry_keys_witness :
  let w := mkWorld (openIn [(".env", mkFile [" A = 1 "] None)]) ∅ in
  ∃ line value, entryOf line = Some ("A", value)
                ∧ environ (env.LoadEnv ".env" w).2 !! "A" = Some value.
Proof.
  destruct (LoadEnv_changes_only_entry_keys ".env" "A"
              (mkWorld (openIn [(".env", mkFile [" A = 1 "] None)]) ∅))
    as (f & line & value & _ & _ & He & Hv & _).
  { vm_compute. discriminate. }
  by exists line, value.
Defined.

(** X4.  When every entry for a key in the file has the same value (so when
    the key occurs once) and [os.Setenv] accepts it, [GetEnv] returns for
    the key the value that [os.Getenv] returns after [LoadEnv]. *)
Theorem GetEnv_agrees_with_LoadEnv (filename key value : string) (w : World)
    (f : File) :
  files w filename = inl f →
  (∃ line, line ∈ tokens f ∧ entryOf line = Some (key, value)) →
  (∀ line v, line ∈ tokens f → entryOf line = Some (key, v) → v = value) →
  os.validEnv key value = true →
  (env.GetEnv key filename w).1 = (value, None)
  ∧ (os.Getenv key (env.LoadEnv filename w).2).1 = value.
Proof.
  intros Hf (line & Hin & He) Hsame Hv. split.
  - unfold env.GetEnv, bind, os.Open. rewrite Hf.
    destruct (first_match key (tokens f)) as [Hno|(l1 & x & l2 & Ht & H1 & Hx)].
    + rewrite Forall_forall in Hno. specialize (Hno line Hin).
      assert (matchesKey key line = true) by (apply matchesKey_true; eauto).
      congruence.
    + apply matchesKey_true in Hx as [v Hx].
      assert (v = value) as ->.
      { apply (Hsame x); [|done]. rewrite Ht. apply elem_of_app. right. by left. }
      rewrite Ht. by rewrite (GetEnv_loop_first key l1 x l2 value).
  - rewrite (LoadEnv_opened _ _ _ Hf). unfold os.Getenv. simpl.
    rewrite lookup_writes, (lastWrite_same key value); [done| |  |done].
    + apply entriesOf_elem. eauto.
    + intros v' (l & Hl & Hl')%entriesOf_elem. eauto.
Qed.

Lemma GetEnv_agrees_with_LoadEnv_witness :
  let w := mkWorld (openIn [(".env", mkFile ["# c"; "A = 'x' "; "B=2"] None)]) ∅ in
  (env.GetEnv "A" ".env" w).1 = ("x", None)
  ∧ (os.Getenv "A" (env.LoadEnv ".env" w).2).1 = "x".
Proof.
  intros w.
  apply (GetEnv_agrees_with_LoadEnv ".env" "A" "x" w
           (mkFile ["# c"; "A = 'x' "; "B=2"] None) eq_refl).
  - exists "A = 'x' ". split; [right; left|reflexivity].
  - intros line v Hin.
    repeat (apply elem_of_cons in Hin as [->|Hin]);
      [| |vm_compute; discriminate|by apply elem_of_nil in Hin];
      vm_compute; congruence.
  - reflexivity.
Defined.

(** X5.  Loading a file whose lines are those of a first file followed by
    those of a second leaves the world as loading the first file and then
    the second does. *)
Theorem LoadEnv_concatenation (name1 name2 name12 : string) (w : World)
    (f1 f2 f12 : File) :
  files w name1 = inl f1 → files w name2 = inl f2 → files w name12 = inl f12 →
  tokens f12 = tokens f1 ++ tokens f2 →
  (env.LoadEnv name12 w).2 = (env.LoadEnv name2 (env.LoadEnv name1 w).2).2.
Proof.
  intros H1 H2 H12 Ht.
  rewrite (LoadEnv_opened _ _ _ H12), (LoadEnv_opened _ _ _ H1). simpl.
  rewrite (LoadEnv_opened name2 _ f2) by done. simpl.
  by rewrite Ht, entriesOf_app, foldl_app.
Qed.

Lemma LoadEnv_concatenation_witness :
  let w := mkWorld (openIn [("a", mkFile ["A=1"; "B=1"] None);
                            ("b", mkFile ["B=2"] (Some ReadError));
                            ("ab", mkFile ["A=1"; "B=1"; "B=2"] None)]) ∅ in
  (env.LoadEnv "ab" w).2 = (env.LoadEnv "b" (env.LoadEnv "a" w).2).2.
Proof.
  intros w.
  exact (LoadEnv_concatenation "a" "b" "ab" w
           (mkFile ["A=1"; "B=1"] None) (mkFile ["B=2"] (Some ReadError))
           (mkFile ["A=1"; "B=1"; "B=2"] None)
           eq_refl eq_refl eq_refl eq_refl).
Defined.

(** X6.  Two files with no key in common load in either order to the same
    world. *)
Theorem LoadEnv_commutes (name1 name2 : string) (w : World) (f1 f2 : File) :
  files w name1 = inl f1 → files w name2 = inl f2 →
  (∀ l1 l2 k v1 v2, l1 ∈ tokens f1 → l2 ∈ tokens f2 →
     entryOf l1 = Some (k, v1) → entryOf l2 ≠ Some (k, v2)) →
  (env.LoadEnv name2 (env.LoadEnv name1 w).2).2
  = (env.LoadEnv name1 (env.LoadEnv name2 w).2).2.
Proof.
  intros H1 H2 Hdis.
  rewrite (LoadEnv_opened name1 w f1), (LoadEnv_opened name2 w f2) by done.
  simpl. rewrite (LoadEnv_opened name2 _ f2), (LoadEnv_opened name1 _ f1) by done.
  simpl. f_equal. apply map_eq. intros k. rewrite !lookup_writes.
  destruct (lastWrite k (entriesOf (tokens f1))) as [v1|] eqn:E1;
    destruct (lastWrite k (entriesOf (tokens f2))) as [v2|] eqn:E2; try done.
  apply lastWrite_Some in E1 as [(l1 & ? & ?)%entriesOf_elem _].
  apply lastWrite_Some in E2 as [(l2 & ? & ?)%entriesOf_elem _].
  by destruct (Hdis l1 l2 k v1 v2).
Qed.

Lemma LoadEnv_commutes_witness :
  let w := mkWorld (openIn [("a", mkFile ["A=1"] None);
                            ("b", mkFile ["B=2"] None)]) ∅ in
  (env.LoadEnv "b" (env.LoadEnv "a" w).2).2
  = (env.LoadEnv "a" (env.LoadEnv "b" w).2).2.
Proof.
  intros w.
  apply (LoadEnv_commutes "a" "b" w (mkFile ["A=1"] None) (mkFile ["B=2"] None)
           eq_refl eq_refl).
  intros l1 l2 k v1 v2 ->%list_elem_of_singleton ->%list_elem_of_singleton.
  vm_compute. congruence.
Defined.

(** X7.  [GetEnv] compares the target key as it is given with the trimmed
    key of each line: a target key with white space at either end, or with
    a [=], is never found, and the result is the empty string with the
    error of the open or of the scan, if any. *)
Theorem GetEnv_untrimmed_key_absent (key filename : string) (w : World) :
  0 < strings.leadingSpace key ∨ 0 < strings.trailingSpace key
  ∨ occurs "=" key →
  env.GetEnv key filename w =
  (("", match files w filename with inr err => Some err | inl f => scanErr f end),
   w).
Proof.
  intros Hkey. unfold env.GetEnv, bind, os.Open.
  destruct (files w filename) as [f|err]; [|done].
  apply GetEnv_loop_absent, Forall_forall. intros line _.
  apply not_true_is_false. intros [v He]%matchesKey_true.
  destruct (entryOf_key_trimmed _ _ _ He) as (Hl & Hr & Heq).
  destruct Hkey as [?|[?|?]]; [lia|lia|done].
Qed.

Lemma GetEnv_untrimmed_key_absent_witness :
  (env.GetEnv " A" ".env" (worldOf [" A=1"; "A=2"] None)).1 = ("", None).
Proof.
  rewrite (GetEnv_untrimmed_key_absent " A" ".env" (worldOf [" A=1"; "A=2"] None));
    [reflexivity|].
  left. vm_compute. lia.
Defined.

(** X8.  Only the lines with an entry count: without the comments, the
    empty lines and the lines that have no [=], both loops give the same
    result and the same world. *)
Theorem lines_without_entry_inert (key : string) (lines : list string)
    (final : option error) (w : World) :
  env.LoadEnv_loop (filter (λ l, is_Some (entryOf l)) lines) w
  = env.LoadEnv_loop lines w
  ∧ env.GetEnv_loop key (filter (λ l, is_Some (entryOf l)) lines) final w
    = env.GetEnv_loop key lines final w.
Proof.
  revert w. induction lines as [|line rest IH]; intros w; [done|].
  rewrite filter_cons. destruct (entryOf line) as [[k v]|] eqn:He.
  - rewrite decide_True by eauto.
    rewrite !LoadEnv_loop_cons, !GetEnv_loop_cons, He.
    split; [apply IH|]. destruct (String.eqb k key); [done|apply IH].
  - rewrite decide_False by (by intros [? ?]).
    rewrite (LoadEnv_loop_cons line), (GetEnv_loop_cons key line), He. apply IH.
Qed.

(** X9.  The shape of a line with an entry: a key segment without [=], the
    first [=], a value segment; the key is the key segment less a run of
    white space at each end, and has none left at its ends; the value is
    the value segment less a run of white space and then a run of quote
    characters at each end, and has no quote character left at its ends.
    That key and that value are what both loops read from the line. *)
Theorem entry_shape (line key value : string) :
  entryOf line = Some (key, value) →
  ∃ part0 part1 a b a' qa qb b',
    line = part0 +:+ String "=" part1 ∧ ¬ occurs "=" part0
    ∧ part0 = a +:+ key +:+ b
    ∧ part1 = a' +:+ (qa +:+ value +:+ qb) +:+ b'
    ∧ spaceRun a ∧ spaceRun b ∧ spaceRun a' ∧ spaceRun b'
    ∧ allBytes isQuote qa = true ∧ allBytes isQuote qb = true
    ∧ strings.leadingSpace key = 0 ∧ strings.trailingSpace key = 0
    ∧ startsIn isQuote value = false ∧ endsIn isQuote value = false
    ∧ loopsTake line key value.
Proof.
  intros He. pose proof (loopsTake_entry _ _ _ He) as Htake. revert He.
  intros (_ & p0 & p1 & Hs & -> & ->)%entryOf_Some.
  destruct (SplitN_2 line "=") as [[_ HS]|(x & y & Hline & Hx & HS)];
    rewrite HS in Hs; [done|]. injection Hs as -> ->.
  apply IndexByte_None in Hx.
  destruct (TrimSpace_split p0) as (a & b & Hp0 & Ha & Hb & Hl & Hr).
  destruct (TrimSpace_split p1) as (a' & b' & Hp1 & Ha' & Hb' & _ & _).
  rewrite Trim_quotes.
  destruct (trim_both_split isQuote (strings.TrimSpace p1))
    as (qa & qb & Hq & Hqa & Hqb & Hst & Hen).
  exists p0, p1, a, b, a', qa, qb, b'.
  split_and!; try done; [by rewrite <- Hq|by rewrite <- Trim_quotes].
Qed.

Lemma entry_shape_witness :
  ∃ part0 part1, " A = 'x' " = part0 +:+ String "=" part1 ∧ ¬ occurs "=" part0.
Proof.
  destruct (entry_shape " A = 'x' " "A" "x" eq_refl)
    as (part0 & part1 & _ & _ & _ & _ & _ & _ & Hl & Hn & _).
  by exists part0, part1.
Defined.

(** ** The scanner on the bytes of a file *)

Lemma IndexByte_first (a b : string) (c : ascii) :
  strings.IndexByte a c = None →
  strings.IndexByte (a +:+ String c b) c = Some (len a).
Proof.
  induction a as [|d a IH]; simpl.
  - by rewrite Ascii.eqb_refl.
  - rewrite ?app_cons. simpl. destruct (Ascii.eqb d c); [done|].
    destruct (strings.IndexByte a c); [done|]. intros _. by rewrite IH.
Qed.

Lemma IndexByte_snoc_None (a : string) (c d : ascii) :
  strings.IndexByte a c = None → d ≠ c →
  strings.IndexByte (a +:+ String d "") c = None.
Proof.
  intros Ha Hd. induction a as [|x a IH]; simpl in *.
  - apply Ascii.eqb_neq in Hd. by rewrite Hd.
  - rewrite ?app_cons. simpl. destruct (Ascii.eqb x c); [done|].
    destruct (strings.IndexByte a c); [done|]. by rewrite IH.
Qed.

Lemma scan_empty fuel : bufio.scan fuel "" = ([], None).
Proof. by destruct fuel. Qed.

Arguments bufio.MaxScanTokenSize : simpl never.
Arguments bufio.scan : simpl never.

Lemma scan_S fuel (data : string) :
  bufio.scan (S fuel) data =
  if String.eqb data "" then ([], None)
  else
    match strings.IndexByte data "010" with
    | Some i =>
        if bufio.MaxScanTokenSize <=? i then ([], Some ErrTooLong)
        else
          let '(ts, e) := bufio.scan fuel (slice data (i + 1) (len data)) in
          (bufio.dropCR (slice data 0 i) :: ts, e)
    | None =>
        if bufio.MaxScanTokenSize <=? len data then ([], Some ErrTooLong)
        else ([bufio.dropCR data], None)
    end.
Proof. reflexivity. Qed.

(** One step of the scanner on a token that ends with ['\n'] and fits. *)
Lemma scan_token fuel (t rest : string) :
  strings.IndexByte t "010" = None → len t < bufio.MaxScanTokenSize →
  bufio.scan (S fuel) (t +:+ String "010" rest) =
  let '(ts, e) := bufio.scan fuel rest in (bufio.dropCR t :: ts, e).
Proof.
  intros Ht Hlen. rewrite scan_S.
  assert (String.eqb (t +:+ String "010" rest) "" = false) as ->.
  { apply String.eqb_neq. by destruct t. }
  rewrite IndexByte_first by done.
  apply Nat.leb_gt in Hlen. rewrite Hlen.
  by rewrite slice_suffix, slice_prefix.
Qed.

Lemma dropCR_no_CR (l : string) : lastByte l ≠ Some "013"%char → bufio.dropCR l = l.
Proof.
  unfold bufio.dropCR. destruct (lastByte l) as [c|]; [|done].
  intros Hc. destruct (Ascii.eqb_spec c "013"); [congruence|done].
Qed.

Lemma dropCR_CR (l : string) : bufio.dropCR (l +:+ String "013" "") = l.
Proof. unfold bufio.dropCR. by rewrite lastByte_snoc, dropLast_snoc. Qed.

Lemma scan_unlines (ls : list string) (fuel : nat) (tail : string) :
  Forall plainLine ls →
  bufio.scan (length ls + fuel) (unlines ls +:+ tail) =
  let '(ts, e) := bufio.scan fuel tail in (ls ++ ts, e).
Proof.
  induction 1 as [|l ls (Hlf & Hcr & Hlen) _ IH]; simpl.
  { rewrite app_empty_l. by destruct (bufio.scan fuel tail). }
  rewrite app_assoc', app_cons, scan_token, IH by (done || lia).
  destruct (bufio.scan fuel tail). by rewrite dropCR_no_CR.
Qed.

Lemma scan_unlinesCRLF (ls : list string) (fuel : nat) (tail : string) :
  Forall plainLine ls →
  bufio.scan (length ls + fuel) (unlinesCRLF ls +:+ tail) =
  let '(ts, e) := bufio.scan fuel tail in (ls ++ ts, e).
Proof.
  induction 1 as [|l ls (Hlf & Hcr & Hlen) _ IH]; simpl.
  { rewrite app_empty_l. by destruct (bufio.scan fuel tail). }
  rewrite app_assoc', !app_cons.
  change (l +:+ String "013" (String "010" (unlinesCRLF ls +:+ tail)))
    with (l +:+ String "013" "" +:+ String "010" (unlinesCRLF ls +:+ tail)).
  rewrite <- app_assoc', scan_token, IH.
  - destruct (bufio.scan fuel tail). by rewrite dropCR_CR.
  - by apply IndexByte_snoc_None.
  - rewrite len_snoc. lia.
Qed.

Lemma length_le_unlines (ls : list string) : length ls ≤ len (unlines ls).
Proof.
  induction ls as [|l ls IH]; simpl; [lia|].
  rewrite len_app. simpl. lia.
Qed.

Lemma length_le_unlinesCRLF (ls : list string) : length ls ≤ len (unlinesCRLF ls).
Proof.
  induction ls as [|l ls IH]; simpl; [lia|].
  rewrite len_app. simpl. lia.
Qed.

(** X10.  Lines written to a file, each followed by a line feed or by a
    carriage return and a line feed, are the lines that the scanner
    delivers, with no error: this for lines without line feed, not ending
    with a carriage return, and short enough for the scanner's buffer. *)
Theorem scanner_round_trip (ls : list string) :
  Forall plainLine ls →
  bufio.fileOf (unlines ls) = mkFile ls None
  ∧ bufio.fileOf (unlinesCRLF ls) = mkFile ls None.
Proof.
  intros Hls. unfold bufio.fileOf. split.
  - pose proof (length_le_unlines ls) as Hlen.
    replace (S (len (unlines ls)))
      with (length ls + (S (len (unlines ls)) - length ls)) by lia.
    rewrite <- (app_empty_r (unlines ls)) at 2.
    rewrite scan_unlines, scan_empty by done. by rewrite app_nil_r.
  - pose proof (length_le_unlinesCRLF ls) as Hlen.
    replace (S (len (unlinesCRLF ls)))
      with (length ls + (S (len (unlinesCRLF ls)) - length ls)) by lia.
    rewrite <- (app_empty_r (unlinesCRLF ls)) at 2.
    rewrite scan_unlinesCRLF, scan_empty by done. by rewrite app_nil_r.
Qed.

Lemma plainLine_intro (l : string) :
  strings.IndexByte l "010" = None → lastByte l ≠ Some "013"%char →
  len l + 1 < 1024 → plainLine l.
Proof.
  intros ? ? Hlen. split_and!; [done..|].
  unfold bufio.MaxScanTokenSize. lia.
Qed.

Lemma scanner_round_trip_witness :
  bufio.fileOf (unlinesCRLF ["A=1"; ""; "# c"; "B = 'x' "])
  = mkFile ["A=1"; ""; "# c"; "B = 'x' "] None.
Proof.
  assert (Forall plainLine ["A=1"; ""; "# c"; "B = 'x' "]) as Hls.
  { repeat (apply Forall_cons_2;
              [apply plainLine_intro;
                 [reflexivity|vm_compute; discriminate|simpl; lia]|]).
    apply Forall_nil_2. }
  exact (proj2 (scanner_round_trip ["A=1"; ""; "# c"; "B = 'x' "] Hls)).
Defined.

Lemma IndexByte_app_ge (a b : string) (c : ascii) :
  strings.IndexByte a c = None →
  match strings.IndexByte (a +:+ b) c with
  | Some i => len a ≤ i
  | None => True
  end.
Proof.
  induction a as [|d a IH]; simpl.
  { intros _. destruct (strings.IndexByte _ c); [lia|done]. }
  rewrite ?app_cons. simpl. destruct (Ascii.eqb d c); [done|].
  destruct (strings.IndexByte a c); [done|]. intros _. specialize (IH eq_refl).
  destruct (strings.IndexByte (a +:+ b) c); simpl; [lia|done].
Qed.

(** A token of [MaxScanTokenSize] bytes or more ends the scan. *)
Lemma scan_too_long fuel (long rest : string) :
  strings.IndexByte long "010" = None →
  bufio.MaxScanTokenSize ≤ len long →
  bufio.scan (S fuel) (long +:+ rest) = ([], Some ErrTooLong).
Proof.
  intros Hlf Hlen. rewrite scan_S.
  assert (String.eqb (long +:+ rest) "" = false) as ->.
  { apply String.eqb_neq. destruct long; [|done].
    simpl in Hlen. unfold bufio.MaxScanTokenSize in Hlen. lia. }
  pose proof (IndexByte_app_ge long rest "010" Hlf) as Hi.
  destruct (strings.IndexByte (long +:+ rest) "010") as [i|].
  - assert ((bufio.MaxScanTokenSize <=? i) = true) as ->; [|done].
    apply Nat.leb_le. lia.
  - assert ((bufio.MaxScanTokenSize <=? len (long +:+ rest)) = true) as ->; [|done].
    apply Nat.leb_le. rewrite len_app. lia.
Qed.

(** X11.  A line that does not fit the scanner's buffer: the lines before
    it are delivered, the scan ends with [bufio.ErrTooLong], and [LoadEnv]
    returns that error with the entries of the earlier lines written and
    nothing of what follows. *)
Theorem LoadEnv_line_too_long (ls : list string) (long rest : string) :
  Forall plainLine ls →
  strings.IndexByte long "010" = None →
  bufio.MaxScanTokenSize ≤ len long →
  let content := unlines ls +:+ long +:+ rest in
  bufio.fileOf content = mkFile ls (Some ErrTooLong)
  ∧ ∀ filename w,
      files w filename = inl (bufio.fileOf content) →
      env.LoadEnv filename w = (Some ErrTooLong, setenvAll w (entriesOf ls)).
Proof.
  intros Hls Hlf Hlen content.
  assert (bufio.fileOf content = mkFile ls (Some ErrTooLong)) as Hfile.
  { unfold bufio.fileOf, content.
    pose proof (length_le_unlines ls) as Hl.
    replace (S (len (unlines ls +:+ long +:+ rest)))
      with (length ls + S (len (unlines ls +:+ long +:+ rest) - length ls))
      by (rewrite len_app; lia).
    rewrite scan_unlines, scan_too_long by done. by rewrite app_nil_r. }
  split; [done|]. intros filename w Hf. rewrite Hfile in Hf.
  rewrite (LoadEnv_opened _ _ _ Hf), setenvAll_world. done.
Qed.

Lemma len_repeatByte n c : len (repeatByte n c) = n.
Proof. induction n as [|n IH]; simpl; [done|]. by rewrite IH. Qed.

Lemma IndexByte_repeatByte n c d :
  c ≠ d → strings.IndexByte (repeatByte n c) d = None.
Proof.
  intros Hne. apply Ascii.eqb_neq in Hne.
  induction n as [|n IH]; simpl; [done|]. by rewrite Hne, IH.
Qed.

Lemma LoadEnv_line_too_long_witness :
  let long := repeatByte bufio.MaxScanTokenSize "x" in
  bufio.fileOf (unlines ["A=1"] +:+ long +:+ String "010" "B=2")
  = mkFile ["A=1"] (Some ErrTooLong).
Proof.
  intros long.
  assert (Forall plainLine ["A=1"]) as Hls.
  { apply Forall_cons_2; [|apply Forall_nil_2].
    apply plainLine_intro; [reflexivity|vm_compute; discriminate|simpl; lia]. }
  assert (strings.IndexByte long "010" = None) as Hlf
    by (by apply IndexByte_repeatByte).
  assert (bufio.MaxScanTokenSize ≤ len long) as Hlen
    by (unfold long; by rewrite len_repeatByte).
  exact (proj1 (LoadEnv_line_too_long ["A=1"] long (String "010" "B=2")
                  Hls Hlf Hlen)).
Defined.

(** ** White space around the key and the value *)

Lemma runeStart_not_second x c :
  runeStart c = true → strings.space2 x c = false.
Proof.
  unfold runeStart, strings.space2, strings.asciiSpace. cbv zeta beta iota.
  rewrite !orb_true_iff, !andb_true_iff, !N.eqb_eq, !N.leb_le.
  rewrite !andb_false_iff, !orb_false_iff, !N.eqb_neq. lia.
Qed.

Lemma runeStart_not_second3 x c y :
  runeStart c = true → strings.space3 x c y = false.
Proof.
  unfold runeStart, strings.space3, strings.asciiSpace. cbv zeta beta iota.
  rewrite !orb_true_iff, !andb_true_iff, !N.eqb_eq, !N.leb_le.
  rewrite !orb_false_iff, !andb_false_iff, !orb_false_iff, !andb_false_iff,
    !N.eqb_neq, !N.leb_gt. lia.
Qed.

Lemma runeStart_not_third x y c :
  runeStart c = true → strings.space3 x y c = false.
Proof.
  unfold runeStart, strings.space3, strings.asciiSpace. cbv zeta beta iota.
  rewrite !orb_true_iff, !andb_true_iff, !N.eqb_eq, !N.leb_le.
  rewrite !orb_false_iff, !andb_false_iff, !orb_false_iff, !andb_false_iff,
    !N.eqb_neq, !N.leb_gt. lia.
Qed.

Lemma space2_start c d : strings.space2 c d = true → runeStart c = true.
Proof.
  unfold runeStart, strings.space2. cbv zeta beta iota.
  rewrite !orb_true_iff, !andb_true_iff, !orb_true_iff, !N.eqb_eq. lia.
Qed.

Lemma space3_start c d e : strings.space3 c d e = true → runeStart c = true.
Proof.
  unfold runeStart, strings.space3. cbv zeta beta iota.
  rewrite !orb_true_iff, !andb_true_iff, !orb_true_iff, !andb_true_iff,
    !N.eqb_eq. lia.
Qed.

Lemma asciiSpace_start c : strings.asciiSpace c = true → runeStart c = true.
Proof. unfold runeStart. cbv zeta. by intros ->. Qed.

(** The three forms of a white-space rune. *)
Lemma rune_cases (rune : string) :
  0 < len rune → strings.leadingSpace rune = len rune →
  (∃ c, rune = String c "" ∧ strings.asciiSpace c = true)
  ∨ (∃ c d, rune = String c (String d "") ∧ strings.space2 c d = true)
  ∨ (∃ c d e, rune = String c (String d (String e ""))
              ∧ strings.space3 c d e = true).
Proof.
  destruct rune as [|c [|d [|e [|x r]]]]; simpl; intros Hpos H; try lia.
  - left. exists c. destruct (strings.asciiSpace c); [done|lia].
  - right. left. exists c, d. destruct (strings.asciiSpace c); [lia|].
    destruct (strings.space2 c d); [done|lia].
  - right. right. exists c, d, e. destruct (strings.asciiSpace c); [lia|].
    destruct (strings.space2 c d); [lia|].
    destruct (strings.space3 c d e); [done|lia].
  - destruct (strings.asciiSpace c); [lia|].
    destruct (strings.space2 c d); [lia|].
    destruct (strings.space3 c d e); lia.
Qed.

Lemma leadingSpace_rune (rune rest : string) :
  0 < len rune → strings.leadingSpace rune = len rune →
  strings.leadingSpace (rune +:+ rest) = len rune.
Proof.
  intros Hpos H.
  destruct (rune_cases rune Hpos H)
    as [(c & -> & Hc)|[(c & d & -> & Hcd)|(c & d & e & -> & Hcde)]].
  - simpl. by rewrite Hc.
  - destruct (space2_bytes _ _ Hcd) as (Hc & _).
    rewrite !app_cons. simpl. by rewrite Hc, Hcd.
  - destruct (space3_bytes _ _ _ Hcde) as (Hc & _ & Hcd & _).
    rewrite !app_cons. simpl. by rewrite Hc, Hcd, Hcde.
Qed.

Lemma trailingSpace_rune (rest rune : string) :
  0 < len rune → strings.leadingSpace rune = len rune →
  strings.trailingSpace (rest +:+ rune) = len rune.
Proof.
  intros Hpos H. unfold strings.trailingSpace.
  destruct (rune_cases rune Hpos H)
    as [(c & -> & Hc)|[(c & d & -> & Hcd)|(c & d & e & -> & Hcde)]].
  - by rewrite rev_snoc, Hc.
  - destruct (space2_bytes _ _ Hcd) as (_ & _ & Hd & _).
    change (rest +:+ String c (String d ""))
      with (rest +:+ (String c "" +:+ String d "")).
    rewrite <- app_assoc', !rev_snoc. by rewrite Hd, Hcd.
  - destruct (space3_bytes _ _ _ Hcde) as (_ & _ & _ & He & _ & Hde).
    change (rest +:+ String c (String d (String e "")))
      with (rest +:+ (String c "" +:+ (String d "" +:+ String e ""))).
    rewrite <- !app_assoc', !rev_snoc. by rewrite He, Hde, Hcde.
Qed.

(** A run of white space, seen from its right end. *)
Lemma spaceRun_snoc (b : string) :
  spaceRun b →
  b = "" ∨ ∃ b' rune, b = b' +:+ rune ∧ spaceRun b'
                      ∧ 0 < len rune ∧ strings.leadingSpace rune = len rune.
Proof.
  induction 1 as [|rune rest Hpos Hrune Hrest IH]; [by left|]. right.
  destruct IH as [->|(b' & rune' & -> & Hb' & Hpos' & Hrune')].
  - exists "", rune. rewrite app_empty_r. split_and!; [done|constructor|done..].
  - exists (rune +:+ b'), rune'. split_and!; [|by constructor|done..].
    by rewrite app_assoc'.
Qed.

Lemma spaceRun_first (b : string) :
  spaceRun b → b = "" ∨ ∃ c r, b = String c r ∧ runeStart c = true.
Proof.
  destruct 1 as [|rune rest Hpos Hrune _]; [by left|]. right.
  destruct (rune_cases rune Hpos Hrune)
    as [(c & -> & Hc)|[(c & d & -> & Hcd)|(c & d & e & -> & Hcde)]];
    rewrite app_cons; eexists _, _; (split; [done|]).
  - by apply asciiSpace_start.
  - by apply space2_start in Hcd.
  - by apply space3_start in Hcde.
Qed.

Lemma spaceRun_len_nil (a : string) : spaceRun a → len a = 0 → a = "".
Proof. intros _ H. by destruct a. Qed.

(** The left loop runs through a run of white space at the start. *)
Lemma trimLeftSpace_run (a x : string) (f1 f2 : nat) :
  spaceRun a → len (a +:+ x) ≤ f1 → len x ≤ f2 →
  strings.trimLeftSpace f1 (a +:+ x) = strings.trimLeftSpace f2 x.
Proof.
  intros Ha. revert f1.
  induction Ha as [|rune rest Hpos Hrune _ IH]; intros f1 H1 H2.
  { by apply trimLeftSpace_fuel. }
  rewrite app_assoc' in *. rewrite len_app in H1.
  destruct f1 as [|f1]; [lia|]. simpl.
  rewrite leadingSpace_rune by done.
  destruct (len rune) as [|n] eqn:Hn; [lia|]. rewrite <- Hn in *.
  rewrite slice_drop. apply IH; lia.
Qed.

(** The right loop runs through a run of white space at the end. *)
Lemma trimRightSpace_run (y b : string) (f1 f2 : nat) :
  spaceRun b → len (y +:+ b) ≤ f1 → len y ≤ f2 →
  strings.trimRightSpace f1 (y +:+ b) = strings.trimRightSpace f2 y.
Proof.
  remember (len b) as n eqn:Hn. revert b Hn f1.
  induction n as [n IH] using lt_wf_ind. intros b Hn f1 Hb H1 H2.
  destruct (spaceRun_snoc b Hb) as [->|(b' & rune & -> & Hb' & Hpos & Hrune)].
  { rewrite app_empty_r in *. by apply trimRightSpace_fuel. }
  rewrite <- app_assoc' in *. rewrite len_app in H1, Hn.
  destruct f1 as [|f1]; [lia|]. simpl.
  rewrite trailingSpace_rune by done.
  destruct (len rune) as [|m] eqn:Hm; [lia|]. rewrite <- Hm in *.
  rewrite slice_take. apply (IH (len b')); [lia|done|done|lia|done].
Qed.

(** No white-space rune starts where a text that starts with none meets a
    run of white space. *)
Lemma leadingSpace_boundary (t b : string) :
  strings.leadingSpace t = 0 → t ≠ "" → spaceRun b →
  strings.leadingSpace (t +:+ b) = 0.
Proof.
  intros Ht Hne Hb.
  destruct t as [|b0 [|b1 [|b2 t]]]; [done|..]; rewrite ?app_cons, ?app_empty_l;
    simpl in *; destruct (strings.asciiSpace b0); try done.
  - destruct (spaceRun_first b Hb) as [->|(c & r & -> & Hc)]; [done|].
    rewrite runeStart_not_second by done.
    destruct r as [|d r]; [done|]. by rewrite runeStart_not_second3.
  - destruct (strings.space2 b0 b1); [done|].
    destruct (spaceRun_first b Hb) as [->|(c & r & -> & Hc)]; [done|].
    by rewrite runeStart_not_third.
Qed.

(** [TrimSpace] does not see a run of white space put at either end. *)
Lemma TrimSpace_pad (a s b : string) :
  spaceRun a → spaceRun b →
  strings.TrimSpace (a +:+ s +:+ b) = strings.TrimSpace s.
Proof.
  intros Ha Hb. rewrite !TrimSpace_TrimFunc. unfold strings.TrimFunc_IsSpace.
  destruct (trimLeftSpace_split (len s) s) as (a0 & Hs & Ha0 & Hl); [done|].
  remember (strings.trimLeftSpace (len s) s) as t eqn:Et. clear Et.
  assert (strings.trimLeftSpace (len (a +:+ s +:+ b)) (a +:+ s +:+ b)
          = strings.trimLeftSpace (len (t +:+ b)) (t +:+ b)) as ->.
  { rewrite Hs, (app_assoc' a0 t b), <- (app_assoc' a a0 (t +:+ b)).
    apply trimLeftSpace_run; [by apply spaceRun_app|done..]. }
  destruct (decide (t = "")) as [->|Ht].
  - rewrite app_empty_l.
    pose proof (trimLeftSpace_run b "" (len (b +:+ "")) 0 Hb) as Hrun.
    rewrite app_empty_r in Hrun. by rewrite Hrun.
  - rewrite trimLeftSpace_stop by (by apply leadingSpace_boundary).
    by apply trimRightSpace_run.
Qed.

(** The bytes of a run of white space. *)
Lemma spaceRun_bytes (a : string) :
  spaceRun a → allBytes (λ c, strings.asciiSpace c || nonASCII c) a = true.
Proof.
  induction 1 as [|rune rest Hpos Hrune _ IH]; [done|].
  rewrite allBytes_app, IH, andb_true_r.
  destruct (rune_cases rune Hpos Hrune)
    as [(c & -> & Hc)|[(c & d & -> & Hcd)|(c & d & e & -> & Hcde)]]; simpl.
  - by rewrite Hc.
  - destruct (space2_bytes _ _ Hcd) as (_ & -> & _ & ->).
    by rewrite !orb_true_r.
  - destruct (space3_bytes _ _ _ Hcde) as (_ & -> & _ & _ & -> & _).
    unfold strings.space3, nonASCII in *. cbv zeta beta iota in Hcde.
    assert (nonASCII d = true) as Hd.
    { unfold nonASCII. revert Hcde.
      rewrite !orb_true_iff, !andb_true_iff, !orb_true_iff, !andb_true_iff,
        !N.eqb_eq, !N.leb_le. lia. }
    unfold nonASCII in Hd. by rewrite Hd, !orb_true_r.
Qed.

Lemma allBytes_occurs (p : ascii → bool) (c : ascii) (s : string) :
  allBytes p s = true → occurs c s → p c = true.
Proof.
  intros Hs (x & y & ->). rewrite allBytes_app in Hs.
  apply andb_true_iff in Hs as [_ Hs]. simpl in Hs.
  by apply andb_true_iff in Hs as [? _].
Qed.

Lemma occurs_app_inv (c : ascii) (x y : string) :
  occurs c (x +:+ y) → occurs c x ∨ occurs c y.
Proof.
  revert y. induction x as [|d x IH]; intros y; [by right|].
  rewrite app_cons. intros (u & v & Huv).
  destruct u as [|e u].
  - rewrite app_empty_l in Huv. injection Huv as -> _. left. by exists "", x.
  - rewrite app_cons in Huv. injection Huv as -> Huv.
    destruct (IH y) as [(u' & v' & ->)|?]; [by exists u, v| |by right].
    left. by exists (String e u'), v'.
Qed.

Lemma spaceRun_no_eq (a : string) : spaceRun a → ¬ occurs "=" a.
Proof.
  intros Ha Ho.
  by pose proof (allBytes_occurs _ _ _ (spaceRun_bytes a Ha) Ho).
Qed.

(** X12.  Runs of white space around the key segment and around the value
    segment of a line do not change its entry: the key and the value are
    those of the segments without them, and both loops read them from the
    padded line. *)
Theorem entry_padding (k0 v0 a b a' b' : string) :
  spaceRun a → spaceRun b → spaceRun a' → spaceRun b' →
  ¬ occurs "=" k0 →
  let padded := (a +:+ k0 +:+ b) +:+ String "=" (a' +:+ v0 +:+ b') in
  ignored padded = false →
  entryOf padded = Some (strings.TrimSpace k0, normalValue v0)
  ∧ loopsTake padded (strings.TrimSpace k0) (normalValue v0).
Proof.
  intros Ha Hb Ha' Hb' Hk padded Hi.
  assert (entryOf padded = Some (strings.TrimSpace k0, normalValue v0)) as He;
    [|split; [done|by apply loopsTake_entry]].
  assert (¬ occurs "=" (a +:+ k0 +:+ b)) as Hseg.
  { intros [?|[?|?]%occurs_app_inv]%occurs_app_inv;
      [by apply (spaceRun_no_eq a)|done|by apply (spaceRun_no_eq b)]. }
  unfold entryOf. rewrite Hi.
  destruct (SplitN_2 padded "=") as [[Hn _]|(x & y & Hxy & Hx & ->)].
  { apply IndexByte_None in Hn. destruct Hn. by eexists _, _. }
  apply IndexByte_None in Hx.
  destruct (first_occurrence_unique _ _ _ _ _ Hxy Hseg Hx) as [<- <-].
  unfold normalValue. by rewrite !TrimSpace_pad.
Qed.

Lemma entry_padding_witness :
  let nbsp := String "194" (String "160" "") in
  entryOf ((" " +:+ "A" +:+ nbsp) +:+ String "=" (nbsp +:+ "'x'" +:+ "  "))
  = Some ("A", "x").
Proof.
  intros nbsp.
  assert (spaceRun " ") as H1 by (apply spaceRun_one; [simpl; lia|reflexivity]).
  assert (spaceRun nbsp) as H2 by (apply spaceRun_one; [simpl; lia|reflexivity]).
  assert (spaceRun "  ") as H3 by (apply (spaceRun_app " " " "); exact H1).
  assert (¬ occurs "=" "A") as Hk
    by (apply IndexByte_None; reflexivity).
  exact (proj1 (entry_padding "A" "'x'" " " nbsp nbsp "  " H1 H2 H2 H3 Hk
                  eq_refl)).
Defined.

(** X13.  Every variable that [LoadEnv] changes can be read from the same
    file with [GetEnv] under the name it has in the environment: the file
    has a first line with an entry for that name, and [GetEnv] returns the
    value of that line, with no error. *)
Theorem GetEnv_finds_loaded_keys (filename key : string) (w : World) :
  environ (env.LoadEnv filename w).2 !! key ≠ environ w !! key →
  ∃ f lines1 line lines2 value,
    files w filename = inl f
    ∧ tokens f = lines1 ++ line :: lines2
    ∧ Forall (λ l, ∀ v, entryOf l ≠ Some (key, v)) lines1
    ∧ entryOf line = Some (key, value)
    ∧ loopsTake line key value
    ∧ env.GetEnv key filename w = ((value, None), w).
Proof.
  destruct (files w filename) as [f|err] eqn:Hf.
  2:{ by rewrite (LoadEnv_not_opened _ _ _ Hf). }
  rewrite (LoadEnv_opened _ _ _ Hf). simpl. rewrite lookup_writes.
  destruct (lastWrite key (entriesOf (tokens f))) as [v|] eqn:Hw; [|done].
  intros _. apply lastWrite_Some in Hw as [Hin _].
  apply entriesOf_elem in Hin as (line & Hl & He).
  unfold env.GetEnv, bind, os.Open. rewrite Hf.
  destruct (first_match key (tokens f)) as [Hno|(l1 & x & l2 & Ht & H1 & Hx)].
  - rewrite Forall_forall in Hno. specialize (Hno line Hl).
    assert (matchesKey key line = true) by (apply matchesKey_true; eauto).
    congruence.
  - apply matchesKey_true in Hx as [value Hx].
    exists f, l1, x, l2, value. split_and!; [done..| |done| |].
    + eapply Forall_impl; [exact H1|]. intros y Hy v' Hv'.
      assert (matchesKey key y = true) as Hm by (apply matchesKey_true; eauto).
      congruence.
    + by apply loopsTake_entry.
    + rewrite Ht. by apply GetEnv_loop_first.
Qed.

Lemma GetEnv_finds_loaded_keys_witness :
  ∃ line value,
    entryOf line = Some ("A", value)
    ∧ env.GetEnv "A" ".env" (worldOf ["A=1"; "A=2"] None)
      = ((value, None), worldOf ["A=1"; "A=2"] None).
Proof.
  destruct (GetEnv_finds_loaded_keys ".env" "A" (worldOf ["A=1"; "A=2"] None))
    as (f & l1 & line & l2 & value & _ & _ & _ & He & _ & Hg).
  { vm_compute. discriminate. }
  by exists line, value.
Defined.
